(** * hw-regexp: the contact matching engine of [main.py]

    A shallow embedding of [Email], [Phone], [Contact], [Phonebook] and
    [PhonebookConflict], together with the fragment of Python's [re]
    engine that the two patterns [RE_EMAIL] and [RE_PHONE] exercise. *)

From Stdlib Require Import String Ascii DecimalString.
From Stdlib Require Import List NArith ZArith Bool Lia.
Import ListNotations.
Local Open Scope N_scope.

Set Implicit Arguments.

(** ** Python strings

    A Python [str] is a sequence of Unicode code points. *)

Definition char := N.
Definition str := list char.

(** String literals of this file are UTF-8; [py] decodes one into the
    code points Python sees for the same literal. *)
Module Utf8.

Definition cont (b : N) : N := b mod 64.

Fixpoint decode (bs : list N) : str :=
  match bs with
  | [] => []
  | b :: t =>
    if b <? 128 then b :: decode t
    else if b <? 224 then
      match t with
      | b1 :: t1 => ((b mod 32) * 64 + cont b1) :: decode t1
      | _ => []
      end
    else if b <? 240 then
      match t with
      | b1 :: b2 :: t2 => ((b mod 16) * 4096 + cont b1 * 64 + cont b2) :: decode t2
      | _ => []
      end
    else
      match t with
      | b1 :: b2 :: b3 :: t3 =>
        ((b mod 8) * 262144 + cont b1 * 4096 + cont b2 * 64 + cont b3) :: decode t3
      | _ => []
      end
  end.

Fixpoint bytes (s : string) : list N :=
  match s with
  | EmptyString => []
  | String a t => N_of_ascii a :: bytes t
  end.

End Utf8.

Definition py (s : string) : str := Utf8.decode (Utf8.bytes s).

Definition ch (a : ascii) : char := N_of_ascii a.

Fixpoint str_eqb (a b : str) : bool :=
  match a, b with
  | [], [] => true
  | x :: a', y :: b' => (x =? y) && str_eqb a' b'
  | _, _ => false
  end.

(** [str(n)] for a Python [int]. *)
Definition str_of_int (n : Z) : str := py (NilZero.string_of_int (Z.to_int n)).

(** ** The interpreter's Unicode database

    [\d], [\s], [\b] and [str.strip] consult the character tables of the
    running interpreter, which differ between Python releases.  The
    embedding takes them as a parameter and fixes only what every
    release agrees on: the ASCII range, and that no decimal digit is
    white space. *)

Definition ascii_decimal (c : char) : bool := (48 <=? c) && (c <=? 57).

Definition ascii_space (c : char) : bool :=
  (9 <=? c) && (c <=? 13) || (28 <=? c) && (c <=? 31) || (c =? 32).

Definition ascii_word (c : char) : bool :=
  ascii_decimal c || (65 <=? c) && (c <=? 90) || (97 <=? c) && (c <=? 122) || (c =? 95).

Class UnicodeDB := {
  isdecimal : char -> bool;   (* category Nd: what [\d] matches *)
  isspace : char -> bool;     (* [str.isspace]: what [\s] matches and [strip] removes *)
  isword : char -> bool;      (* alphanumeric or underscore: what [\w] matches *)
  isdecimal_ascii : forall c, c < 128 -> isdecimal c = ascii_decimal c;
  isspace_ascii : forall c, c < 128 -> isspace c = ascii_space c;
  isword_ascii : forall c, c < 128 -> isword c = ascii_word c;
  isdecimal_not_space : forall c, isdecimal c = true -> isspace c = false
}.

(** ** Regular expressions: the constructs of [RE_EMAIL] and [RE_PHONE] *)

Inductive item :=
| One (c : char)            (* a literal member of a set *)
| Span (lo hi : char)       (* lo-hi *)
| Digit                     (* \d *)
| Space                     (* \s *)
| NonDigit.                 (* \D *)

Inductive regex :=
| Chr (c : char)                     (* a literal character *)
| OneOf (set : list item)            (* [...]; \d is [OneOf [Digit]] *)
| WordB                              (* \b *)
| Seq (r1 r2 : regex)                (* r1 r2 *)
| Maybe (r : regex)                  (* r?, greedy *)
| AtLeast (n : nat) (set : list item) (* set*, set+, set{n,}: greedy, over one set *)
| Times (n : nat) (r : regex)        (* r{n} *)
| Group (i : nat) (r : regex).       (* the i-th capturing group *)

Declare Scope re_scope.
Delimit Scope re_scope with re.
Bind Scope re_scope with regex.
Notation "r1 ;; r2" := (Seq r1 r2) (at level 61, right associativity) : re_scope.

Definition ones (s : string) : list item := map One (py s).

(** The position of a running match: the character before it (for [\b]),
    the text still ahead, and the groups captured so far, newest first. *)
Record cursor := { prev : option char; rest : str; caps : list (nat * str) }.

Definition capture (i : nat) (from to : cursor) : cursor :=
  {| prev := prev to;
     rest := rest to;
     caps := (i, firstn (length (rest from) - length (rest to)) (rest from)) :: caps to |}.

(** [m.group(i)]: [None] when the group took no part in the match. *)
Definition group (m : cursor) (i : nat) : option str :=
  match find (fun e => Nat.eqb (fst e) i) (caps m) with
  | Some e => Some (snd e)
  | None => None
  end.

Section Engine.

Context {U : UnicodeDB}.

Definition item_has (i : item) (c : char) : bool :=
  match i with
  | One x => c =? x
  | Span lo hi => (lo <=? c) && (c <=? hi)
  | Digit => isdecimal c
  | Space => isspace c
  | NonDigit => negb (isdecimal c)
  end.

Definition set_has (set : list item) (c : char) : bool :=
  existsb (fun i => item_has i c) set.

Definition wordp (c : option char) : bool :=
  match c with Some x => isword x | None => false end.

(** [re.sub(set, '', s)] for a one-character pattern: every match is
    one character of the set, and it is deleted. *)
Definition sub_empty (set : list item) (s : str) : str :=
  filter (fun c => negb (set_has set c)) s.

Section Run.

Variable A : Type.

(** A greedy run over one set: the longest run first, then shorter ones,
    never fewer than [n] characters. *)
Fixpoint many (set : list item) (n : nat) (p : option char) (s : str)
         (k : option char -> str -> option A) : option A :=
  let stop := match n with O => k p s | S _ => None end in
  match s with
  | c :: t =>
    if set_has set c then
      match many set (pred n) (Some c) t k with
      | Some a => Some a
      | None => stop
      end
    else stop
  | [] => stop
  end.

Fixpoint times (n : nat) (body : cursor -> (cursor -> option A) -> option A)
         (cur : cursor) (k : cursor -> option A) : option A :=
  match n with
  | O => k cur
  | S m => body cur (fun cur' => times m body cur' k)
  end.

(** The backtracking matcher: [run r cur k] tries the ways [r] matches
    at [cur] in Python's order of preference and answers with the first
    one that the rest of the pattern, [k], accepts. *)
Fixpoint run (r : regex) (cur : cursor) (k : cursor -> option A) : option A :=
  match r with
  | Chr c =>
    match rest cur with
    | x :: t =>
      if x =? c then k {| prev := Some x; rest := t; caps := caps cur |} else None
    | [] => None
    end
  | OneOf set =>
    match rest cur with
    | x :: t =>
      if set_has set x then k {| prev := Some x; rest := t; caps := caps cur |} else None
    | [] => None
    end
  | WordB =>
    if xorb (wordp (prev cur)) (wordp (hd_error (rest cur))) then k cur else None
  | Seq r1 r2 => run r1 cur (fun cur' => run r2 cur' k)
  | Maybe r1 =>
    match run r1 cur k with
    | Some a => Some a
    | None => k cur
    end
  | AtLeast n set =>
    many set n (prev cur) (rest cur)
         (fun p s => k {| prev := p; rest := s; caps := caps cur |})
  | Times n r1 => times n (run r1) cur k
  | Group i r1 => run r1 cur (fun cur' => k (capture i cur cur'))
  end.

End Run.

(** [pattern.match(s)]: a match that starts at the first character. *)
Definition re_match (r : regex) (s : str) : option cursor :=
  run r {| prev := None; rest := s; caps := [] |} (fun m => Some m).

(** [pattern.search(s)]: the match at the leftmost position that has one. *)
Fixpoint scan (r : regex) (p : option char) (s : str) : option cursor :=
  match run r {| prev := p; rest := s; caps := [] |} (fun m => Some m) with
  | Some m => Some m
  | None =>
    match s with
    | [] => None
    | c :: t => scan r (Some c) t
    end
  end.

Definition re_search (r : regex) (s : str) : option cursor := scan r None s.

(** [s.strip()] *)
Fixpoint lstrip (s : str) : str :=
  match s with
  | c :: t => if isspace c then lstrip t else s
  | [] => []
  end.

Definition strip (s : str) : str := rev (lstrip (rev (lstrip s))).

End Engine.

(** ** The two patterns *)

(** [\b[A-Za-z0-9._%+-]+@[A-Za-z0-9.-]+\.[A-Z|a-z]{2,}\b] *)
Definition RE_EMAIL : regex :=
  (WordB ;;
   AtLeast 1 ([Span (ch "A") (ch "Z"); Span (ch "a") (ch "z"); Span (ch "0") (ch "9")]
              ++ ones "._%+-") ;;
   Chr (ch "@") ;;
   AtLeast 1 ([Span (ch "A") (ch "Z"); Span (ch "a") (ch "z"); Span (ch "0") (ch "9")]
              ++ ones ".-") ;;
   Chr (ch ".") ;;
   AtLeast 2 [Span (ch "A") (ch "Z"); One (ch "|"); Span (ch "a") (ch "z")] ;;
   WordB)%re.

(** [[\s()-]] *)
Definition SEPARATOR : list item := Space :: ones "()-".

(** [[(добавчный\.\s]] *)
Definition EXT_MARK : list item := ones "(добавчный" ++ ones "." ++ [Space].

(** [\+?([78])(([\s()-]*\d){10})([(добавчный\.\s]*(\d+))?] *)
Definition RE_PHONE : regex :=
  (Maybe (Chr (ch "+")) ;;
   Group 1 (OneOf (ones "78")) ;;
   Group 2 (Times 10 (Group 3 (AtLeast 0 SEPARATOR ;; OneOf [Digit]))) ;;
   Maybe (Group 4 (AtLeast 0 EXT_MARK ;; Group 5 (AtLeast 1 [Digit]))))%re.

(** ** Exceptions *)

Inductive exn :=
| Exception (msg : string)
| TypeError.

Inductive res (A : Type) :=
| Ok (a : A)
| Raise (e : exn).
Arguments Ok {A} a.
Arguments Raise {A} e.

(** ** class Email *)

Record Email := { address : str }.

Record Phone := { int_code : Z; number : str; ext_code : option str }.

Section Values.

Context {U : UnicodeDB}.

Definition is_valid (a : str) : bool :=
  match re_match RE_EMAIL (strip a) with Some _ => true | None => false end.

Definition Email_init (a : str) : res Email :=
  let email_address := strip a in
  if negb (is_valid email_address) then Raise (Exception "Invalid e-mail address!")
  else Ok {| address := email_address |}.

Definition Email_parse (a : str) : res (option Email) :=
  if is_valid a then
    match Email_init a with
    | Ok e => Ok (Some e)
    | Raise x => Raise x
    end
  else Ok None.

(** ** class Phone *)

Definition Phone_init (code : Z) (num : str) (ext : option str) : Phone :=
  {| int_code := code; number := sub_empty [NonDigit] num; ext_code := ext |}.

End Values.

(** Python objects that a [Contact] attribute or a key of [Phonebook._hash]
    can hold. *)
Inductive value :=
| VNone
| VStr (s : str)
| VPhone (p : Phone)
| VEmail (e : Email).

Definition opt_str_eqb (a b : option str) : bool :=
  match a, b with
  | Some x, Some y => str_eqb x y
  | None, None => true
  | _, _ => false
  end.

(** The number of capturing groups of a pattern: [len(m.groups())]. *)
Fixpoint ngroups (r : regex) : nat :=
  match r with
  | Seq r1 r2 => ngroups r1 + ngroups r2
  | Maybe r1 | Times _ r1 => ngroups r1
  | Group _ r1 => S (ngroups r1)
  | _ => O
  end.

Section Objects.

Context {U : UnicodeDB}.

(** [Phone.parse_ru].  Group 2 takes part in every match of [RE_PHONE]
    and the pattern has five groups, so the test of line 90 holds on every
    match and [ext_code] is always bound: [parse_ru_group2] and
    [RE_PHONE_ngroups] below.  The country code is the constant 7. *)
Definition parse_ru (num : str) : option Phone :=
  match re_search RE_PHONE num with
  | None => None
  | Some m =>
    match group m 2 with
    | Some g =>
      let phone_number := sub_empty [NonDigit] g in
      if Nat.ltb 4 (ngroups RE_PHONE) then Some (Phone_init 7 phone_number (group m 5))
      else None
    | None => None
    end
  end.

(** The comparison of the three fields in [Phone.__eq__]. *)
Definition Phone_same (a b : Phone) : bool :=
  (int_code a =? int_code b)%Z && str_eqb (number a) (number b)
  && opt_str_eqb (ext_code a) (ext_code b).

(** [Phone.__eq__]; a string is parsed first, and [self == None] is [False]. *)
Definition Phone_eq (self : Phone) (other : value) : bool :=
  match other with
  | VPhone o => Phone_same self o
  | VStr s =>
    match parse_ru s with
    | Some o => Phone_same self o
    | None => false
    end
  | _ => false
  end.

(** [Email.__eq__] *)
Definition Email_eq (self : Email) (other : value) : bool :=
  match other with
  | VStr s => str_eqb (address self) s
  | VEmail o => str_eqb (address self) (address o)
  | _ => false
  end.

(** [a == b]: the left operand's [__eq__] runs first; [str] and [None]
    answer [NotImplemented] for a foreign right operand, and then the
    right operand's [__eq__] runs with the operands swapped. *)
Definition py_eq (a b : value) : bool :=
  match a with
  | VEmail e => Email_eq e b
  | VPhone p => Phone_eq p b
  | VStr s =>
    match b with
    | VStr t => str_eqb s t
    | VEmail e => Email_eq e a
    | VPhone p => Phone_eq p a
    | VNone => false
    end
  | VNone =>
    match b with
    | VNone => true
    | VEmail e => Email_eq e a
    | VPhone p => Phone_eq p a
    | VStr _ => false
    end
  end.

(** [bool(v)] *)
Definition truthy (v : value) : bool :=
  match v with
  | VNone => false
  | VStr s => negb (str_eqb s [])
  | VPhone _ | VEmail _ => true
  end.

(** The text of the f-string of [Phone.__hash__]. *)
Definition Phone_hash_text (p : Phone) : str :=
  str_of_int (int_code p) ++ number p
  ++ match ext_code p with Some e => e | None => py "None" end.

(** [hash(v)].  [Email] and [Phone] hash a string; the hash of a string
    is taken to be free of collisions, so that a hash value is given by
    the text that was hashed, and [hash(None)] by [None]. *)
Definition py_hash (v : value) : option str :=
  match v with
  | VNone => None
  | VStr s => Some s
  | VEmail e => Some (address e)
  | VPhone p => Some (Phone_hash_text p)
  end.

(** [last_name + first_name]: defined on two strings, a [TypeError]
    on anything else. *)
Definition py_add (a b : value) : res value :=
  match a, b with
  | VStr x, VStr y => Ok (VStr (x ++ y))
  | _, _ => Raise TypeError
  end.

(** ** dict

    Entries in insertion order.  A stored key answers a lookup when the
    hashes agree and [==] holds; keys of equal hash share one probe
    sequence, along which the entry inserted first is met first.
    Assigning to a key that is already answered replaces the value
    and keeps the stored key. *)
Definition ref := nat.
Definition dict := list (value * ref).

Definition key_match (stored key : value) : bool :=
  opt_str_eqb (py_hash stored) (py_hash key) && py_eq stored key.

Fixpoint dict_get (d : dict) (key : value) : option ref :=
  match d with
  | [] => None
  | (k, v) :: t => if key_match k key then Some v else dict_get t key
  end.

Fixpoint dict_set (d : dict) (key : value) (v : ref) : dict :=
  match d with
  | [] => [(key, v)]
  | (k, v0) :: t =>
    if key_match k key then (k, v) :: t else (k, v0) :: dict_set t key v
  end.

End Objects.

(** ** class Contact

    Attributes hold whatever the constructor was given. *)
Record Contact := {
  first_name : value;
  last_name : value;
  surname : value;
  org : value;
  position : value;
  phone : value;
  email : value
}.

(** Contacts are mutable objects, shared between [Phonebook._list], the
    values of [Phonebook._hash] and the conflicts: the store maps a
    reference to the object it denotes. *)
Definition heap := ref -> Contact.

Definition update (h : heap) (r : ref) (c : Contact) : heap :=
  fun r' => if Nat.eqb r' r then c else h r'.

(** ** class PhonebookConflict (the back reference to the phone book is
    not modelled: nothing reads it) *)
Record PhonebookConflict := { source : ref; dest : ref; resolved : bool }.

(** ** class Phonebook *)
Record Phonebook := {
  _list : list ref;
  _hash : dict;
  conflicts : list PhonebookConflict
}.

Definition Phonebook_init : Phonebook := {| _list := []; _hash := []; conflicts := [] |}.

(** What [add] hands back: [False], or the class object [Contact]
    (line 175). *)
Inductive answer :=
| PyBool (b : bool)
| ContactClass.

Inductive attr :=
| a_first_name | a_last_name | a_surname | a_org | a_position | a_phone | a_email.

Definition attr_name (k : attr) : str :=
  match k with
  | a_first_name => py "first_name"
  | a_last_name => py "last_name"
  | a_surname => py "surname"
  | a_org => py "org"
  | a_position => py "position"
  | a_phone => py "phone"
  | a_email => py "email"
  end.

Definition getattr (c : Contact) (k : attr) : value :=
  match k with
  | a_first_name => first_name c
  | a_last_name => last_name c
  | a_surname => surname c
  | a_org => org c
  | a_position => position c
  | a_phone => phone c
  | a_email => email c
  end.

Definition setattr (c : Contact) (k : attr) (v : value) : Contact :=
  match k with
  | a_first_name =>
    {| first_name := v; last_name := last_name c; surname := surname c; org := org c;
       position := position c; phone := phone c; email := email c |}
  | a_last_name =>
    {| first_name := first_name c; last_name := v; surname := surname c; org := org c;
       position := position c; phone := phone c; email := email c |}
  | a_surname =>
    {| first_name := first_name c; last_name := last_name c; surname := v; org := org c;
       position := position c; phone := phone c; email := email c |}
  | a_org =>
    {| first_name := first_name c; last_name := last_name c; surname := surname c; org := v;
       position := position c; phone := phone c; email := email c |}
  | a_position =>
    {| first_name := first_name c; last_name := last_name c; surname := surname c; org := org c;
       position := v; phone := phone c; email := email c |}
  | a_phone =>
    {| first_name := first_name c; last_name := last_name c; surname := surname c; org := org c;
       position := position c; phone := v; email := email c |}
  | a_email =>
    {| first_name := first_name c; last_name := last_name c; surname := surname c; org := org c;
       position := position c; phone := phone c; email := v |}
  end.

Section Book.

Context {U : UnicodeDB}.

Definition conflict_with (self : Phonebook) (duplicate contact : ref) : Phonebook :=
  {| _list := _list self;
     _hash := _hash self;
     conflicts := conflicts self
                  ++ [{| source := duplicate; dest := contact; resolved := false |}] |}.

(** Lines 169-174. *)
Definition accept (h : heap) (self : Phonebook) (contact : ref) (name : value) : Phonebook :=
  let c := h contact in
  let d0 := _hash self in
  let d1 := if truthy (email c) then dict_set d0 (email c) contact else d0 in
  let d2 := if truthy (phone c) then dict_set d1 (phone c) contact else d1 in
  {| _list := _list self ++ [contact];
     _hash := dict_set d2 name contact;
     conflicts := conflicts self |}.

(** [Phonebook.add] *)
Definition add (h : heap) (self : Phonebook) (contact : ref) : res (Phonebook * answer) :=
  let c := h contact in
  match (match dict_get (_hash self) (email c) with
         | Some d => Some d
         | None => dict_get (_hash self) (phone c)
         end) with
  | Some duplicate => Ok (conflict_with self duplicate contact, PyBool false)
  | None =>
    match py_add (last_name c) (first_name c) with
    | Raise e => Raise e
    | Ok name =>
      match dict_get (_hash self) name with
      | Some duplicate =>
        if negb (truthy (surname (h duplicate))) || negb (truthy (surname c))
           || py_eq (surname (h duplicate)) (surname c)
        then Ok (conflict_with self duplicate contact, PyBool false)
        else Ok (accept h self contact name, ContactClass)
      | None => Ok (accept h self contact name, ContactClass)
      end
    end
  end.

(** ** PhonebookConflict.merge *)

Definition merge_keys : list attr :=
  [a_first_name; a_last_name; a_surname; a_org; a_position; a_phone; a_email].

(** One turn of the loop of lines 228-232. *)
Definition merge_step (ignore : list str) (self : PhonebookConflict) (h : heap) (key : attr)
  : heap :=
  let new_value := getattr (h (dest self)) key in
  if existsb (str_eqb (attr_name key)) ignore
     || negb (truthy new_value)
     || py_eq new_value (getattr (h (source self)) key)
  then h
  else update h (source self) (setattr (h (source self)) key new_value).

(** [merge] hands back the store, the conflict object and its return
    value, [None]. *)
Definition merge (ignore : list str) (self : PhonebookConflict) (h : heap)
  : heap * PhonebookConflict * value :=
  (fold_left (merge_step ignore self) merge_keys h,
   {| source := source self; dest := dest self; resolved := true |},
   VNone).

End Book.

(** ** The smallest database: ASCII and nothing else

    Every database agrees with this one on ASCII text, so it is the one
    used to run the code on concrete ASCII input. *)

#[export, refine] Instance ascii_db : UnicodeDB := {|
  isdecimal c := (c <? 128) && ascii_decimal c;
  isspace c := (c <? 128) && ascii_space c;
  isword c := (c <? 128) && ascii_word c
|}.
Proof.
  - intros c H. apply N.ltb_lt in H. now rewrite H.
  - intros c H. apply N.ltb_lt in H. now rewrite H.
  - intros c H. apply N.ltb_lt in H. now rewrite H.
  - intros c. unfold ascii_decimal, ascii_space.
    destruct (c <? 128); simpl; [|discriminate].
    intros H. apply andb_true_iff in H. destruct H as [H1 H2].
    apply N.leb_le in H1. apply N.leb_le in H2.
    repeat match goal with
    | |- context [?a <=? ?b] => destruct (N.leb_spec a b)
    | |- context [?a =? ?b] => destruct (N.eqb_spec a b)
    end; simpl; try reflexivity; lia.
Defined.

(** ** What a match is

    [Sem r a b]: the pattern [r] can take the matcher from cursor [a] to
    cursor [b].  The relation lists every way to match, without order. *)

Definition after (u : str) (p : option char) : option char :=
  fold_left (fun _ c => Some c) u p.

Definition moved (u : str) (a b : cursor) : Prop :=
  rest a = u ++ rest b /\ prev b = after u (prev a) /\ caps b = caps a.

Fixpoint iter (n : nat) (R : cursor -> cursor -> Prop) (a b : cursor) : Prop :=
  match n with
  | O => b = a
  | S m => exists mid, R a mid /\ iter m R mid b
  end.

Section Semantics.

Context {U : UnicodeDB}.

Fixpoint Sem (r : regex) (a b : cursor) : Prop :=
  match r with
  | Chr c => moved [c] a b
  | OneOf set => exists c, set_has set c = true /\ moved [c] a b
  | WordB => b = a /\ xorb (wordp (prev a)) (wordp (hd_error (rest a))) = true
  | Seq r1 r2 => exists mid, Sem r1 a mid /\ Sem r2 mid b
  | Maybe r1 => Sem r1 a b \/ b = a
  | AtLeast n set =>
    exists u, (n <= length u)%nat /\ forallb (set_has set) u = true /\ moved u a b
  | Times n r1 => iter n (Sem r1) a b
  | Group i r1 => exists mid, Sem r1 a mid /\ b = capture i a mid
  end.

End Semantics.

(** ** How a national number is written

    A subscriber number is ten digits, each after a (possibly empty) run
    of separators. *)

Section Writing.

Context {U : UnicodeDB}.

Definition written (g : str * char) : str := fst g ++ [snd g].

Definition well_written (g : str * char) : Prop :=
  forallb (set_has SEPARATOR) (fst g) = true /\ isdecimal (snd g) = true.

Definition spell (gs : list (str * char)) : str := concat (map written gs).

Definition digits_of (gs : list (str * char)) : str := map snd gs.

Definition subscriber (body : str) : Prop :=
  exists gs, length gs = 10%nat /\ Forall well_written gs /\ body = spell gs.

(** The text holds, somewhere, one of the leading digits [leads] and a
    subscriber number right after it. *)
Definition national_form (leads : str) (s : str) : Prop :=
  exists pre lead body post,
    s = pre ++ lead :: body ++ post /\ List.In lead leads /\ subscriber body.

End Writing.

(** ** Vocabulary of the properties *)

(** [Contact.__init__] *)
Definition Contact_init (first_name last_name surname org position phone email : value)
  : Contact :=
  {| first_name := first_name; last_name := last_name; surname := surname; org := org;
     position := position; phone := phone; email := email |}.

Section Vocabulary.

Context {U : UnicodeDB}.

(** A value that [if v:] and [not v] take for missing: [None] or [''].  *)
Definition absent (v : value) : Prop := truthy v = false.

(** The name key of a record: [last_name + first_name] when both are
    strings. *)
Definition name_key (c : Contact) : option str :=
  match last_name c, first_name c with
  | VStr l, VStr f => Some (l ++ f)
  | _, _ => None
  end.

(** The record of [_list] that was accepted last among those whose name
    key is [n]. *)
Definition last_named (h : heap) (n : str) (l : list ref) : option ref :=
  find (fun r => match name_key (h r) with Some m => str_eqb m n | None => false end)
       (rev l).

(** The phone books that a sequence of calls of [add] builds from the
    empty one, over the contacts of a store. *)
Inductive Reachable (h : heap) : Phonebook -> Prop :=
| reach_init : Reachable h Phonebook_init
| reach_add pb c pb' ans :
    Reachable h pb -> add h pb c = Ok (pb', ans) -> Reachable h pb'.

(** The three fields that [Phone.__eq__] compares. *)
Definition triple (p : Phone) : Z * str * option str := (int_code p, number p, ext_code p).

(** ASCII text, on which every database agrees. *)
Definition ascii_text (s : str) : Prop := Forall (fun c => c < 128) s.

End Vocabulary.

(** One way of writing a national number: the plus sign or not, the
    leading digit, and the ten digits with their separators. *)
Record writing := { plus : bool; lead : char; groups : list (str * char) }.

(** ** Auxiliary notions of the proofs *)

(** One turn of [([\s()-]*\d)]. *)
Definition ONE_DIGIT : regex := Group 3 (AtLeast 0 SEPARATOR ;; OneOf [Digit]).

Definition only_group (i : nat) (l : list (nat * str)) : Prop :=
  Forall (fun e => fst e = i) l.

Inductive opt_rel (A B : Type) (Q : A -> B -> Prop) : option A -> option B -> Prop :=
| rel_none : opt_rel Q None None
| rel_some a b : Q a b -> opt_rel Q (Some a) (Some b).

Definition ascii_prev (p : option char) : Prop :=
  match p with Some c => c < 128 | None => True end.

Section Auxiliary.

Context {U : UnicodeDB}.

Definition text (w : writing) : str :=
  (if plus w then py "+" else []) ++ lead w :: spell (groups w).

Definition proper (w : writing) : Prop :=
  (lead w = ch "7" \/ lead w = ch "8")
  /\ length (groups w) = 10%nat /\ Forall well_written (groups w).

(** What the extension part, [[(добавчный\.\s]*(\d+)], leaves behind. *)
Definition extension (m : cursor) (tail : str) : Prop :=
  (group m 5 = None /\ rest m = tail)
  \/ (exists marks ds, tail = marks ++ ds ++ rest m /\ ds <> []
                       /\ forallb isdecimal ds = true /\ group m 5 = Some ds).

(** Nothing to strip on the left. *)
Definition tidy (s : str) : Prop :=
  match s with
  | c :: _ => isspace c = false
  | [] => True
  end.

Definition ascii_cursor (a : cursor) : Prop :=
  ascii_prev (prev a) /\ ascii_text (rest a) /\ Forall (fun e => ascii_text (snd e)) (caps a).

Definition same_match (x y : cursor) : Prop := x = y /\ ascii_cursor x.

(** The test of line 230: the field is left as it is. *)
Definition skipped (ignore : list str) (self : PhonebookConflict) (h : heap) (key : attr)
  : bool :=
  existsb (str_eqb (attr_name key)) ignore
  || negb (truthy (getattr (h (dest self)) key))
  || py_eq (getattr (h (dest self)) key) (getattr (h (source self)) key).

(** What the field of [source] holds after its turn. *)
Definition merged (ignore : list str) (self : PhonebookConflict) (h : heap) (key : attr)
  : value :=
  if skipped ignore self h key then getattr (h (source self)) key
  else getattr (h (dest self)) key.

End Auxiliary.

(** ** Sample records *)

Definition store_of (l : list Contact) : heap := fun r => nth r l (Contact_init VNone VNone VNone VNone VNone VNone VNone).

Definition mail_a : value := VEmail {| address := py "a@x.com" |}.

(** Two people, one e-mail address. *)
Definition ivanov : Contact :=
  Contact_init (VStr (py "Ivan")) (VStr (py "Ivanov")) VNone VNone VNone VNone mail_a.
Definition petrov : Contact :=
  Contact_init (VStr (py "Petr")) (VStr (py "Petrov")) VNone VNone VNone VNone mail_a.

(** A bare name, with and without middle names. *)
Definition sidorov (middle : value) : Contact :=
  Contact_init (VStr (py "Sidor")) (VStr (py "Sidorov")) middle VNone VNone VNone VNone.

(** A record whose name key reads like an e-mail address. *)
Definition odd_name : Contact :=
  Contact_init (VStr (py ".com")) (VStr (py "a@x")) VNone VNone VNone VNone VNone.

(** ["+7(495) 123-45-67"] and ["74951234567"] *)
Definition w_pretty : writing :=
  {| plus := true; lead := ch "7";
     groups := [(py "(", ch "4"); ([], ch "9"); ([], ch "5"); (py ") ", ch "1"); ([], ch "2");
                ([], ch "3"); (py "-", ch "4"); ([], ch "5"); (py "-", ch "6"); ([], ch "7")] |}.
Definition w_plain : writing :=
  {| plus := false; lead := ch "7"; groups := map (fun d => ([], d)) (py "4951234567") |}.


From Stdlib Require Import Permutation.

(** * More of [main.py]: display forms, calls in a row, the loader *)

(** ** [re.sub] with a template *)

(** A replacement template: literal text and references to groups. *)
Inductive piece :=
| Text (s : str)
| Ref (i : nat).

(** The replacement for the match [m]; a group that took no part gives
    the empty string. *)
Definition expand (tpl : list piece) (m : cursor) : str :=
  flat_map (fun x => match x with
                     | Text s => s
                     | Ref i => match group m i with Some g => g | None => [] end
                     end) tpl.

(** How many characters of [s] the match [m], found at the head of [s],
    has taken. *)
Definition taken (s : str) (m : cursor) : nat := length s - length (rest m).

Section Sub.

Context {U : UnicodeDB}.

(** [re.sub(r, tpl, s)] from the position before [s], with [skip]
    characters of the last match still to pass over.  Matches are replaced
    left to right and do not overlap; text between them is copied.  After an
    empty match the search must advance: a match that takes characters at
    the same position is still replaced, otherwise the next character is
    copied. *)
Fixpoint sub_go (r : regex) (tpl : list piece) (skip : nat) (p : option char) (s : str)
  : str :=
  match s with
  | [] =>
    match skip with
    | O =>
      match run r {| prev := p; rest := []; caps := [] |} (fun m => Some m) with
      | Some m => expand tpl m
      | None => []
      end
    | S _ => []
    end
  | c :: t =>
    match skip with
    | S k => sub_go r tpl k (Some c) t
    | O =>
      let here := {| prev := p; rest := s; caps := [] |} in
      match run r here (fun m => Some m) with
      | None => c :: sub_go r tpl 0 (Some c) t
      | Some m =>
        match taken s m with
        | S n => expand tpl m ++ sub_go r tpl n (Some c) t
        | O =>
          expand tpl m
          ++ match run r here (fun m' => match taken s m' with
                                         | O => None
                                         | S _ => Some m'
                                         end) with
             | Some m' => expand tpl m' ++ sub_go r tpl (pred (taken s m')) (Some c) t
             | None => c :: sub_go r tpl 0 (Some c) t
             end
        end
      end
    end
  end.

Definition re_sub (r : regex) (tpl : list piece) (s : str) : str := sub_go r tpl 0 None s.

End Sub.

(** ** [Phone.__str__] and [Email.__str__] *)

(** [(\d{3})(\d{3})(\d{2})(\d{2})] *)
Definition PHONE_FORMAT : regex :=
  (Group 1 (Times 3 (OneOf [Digit])) ;;
   Group 2 (Times 3 (OneOf [Digit])) ;;
   Group 3 (Times 2 (OneOf [Digit])) ;;
   Group 4 (Times 2 (OneOf [Digit])))%re.

(** ["(\\1)\\2-\\3-\\4"] *)
Definition PHONE_TEMPLATE : list piece :=
  [Text (py "("); Ref 1; Text (py ")"); Ref 2; Text (py "-"); Ref 3; Text (py "-"); Ref 4].

Section Display.

Context {U : UnicodeDB}.

Definition Phone_str (self : Phone) : str :=
  let phone_number := re_sub PHONE_FORMAT PHONE_TEMPLATE (number self) in
  let ext := match ext_code self with
             | Some e => if str_eqb e [] then [] else py " доб." ++ e
             | None => []
             end in
  py "+" ++ str_of_int (int_code self) ++ phone_number ++ ext.

Definition Email_str (self : Email) : str := address self.

End Display.

(** ** Calls of [add] in a row *)

Section Calls.

Context {U : UnicodeDB}.

(** [for c in cs: self.add(c)]; an exception ends the loop. *)
Fixpoint add_all (h : heap) (self : Phonebook) (cs : list ref) : res Phonebook :=
  match cs with
  | [] => Ok self
  | c :: t =>
    match add h self c with
    | Ok (self', _) => add_all h self' t
    | Raise e => Raise e
    end
  end.

End Calls.

(** ** [Phonebook.load_csv_file], from the rows that [csv.reader] yields *)

(** [sep.join(l)] *)
Fixpoint join (sep : str) (l : list str) : str :=
  match l with
  | [] => []
  | [x] => x
  | x :: t => x ++ sep ++ join sep t
  end.

(** [s.split(sep)] for a separator of one character: a cut at every
    occurrence, empty pieces kept, at least one piece. *)
Fixpoint split (sep : char) (s : str) : list str :=
  match s with
  | [] => [[]]
  | c :: t =>
    if c =? sep then [] :: split sep t
    else match split sep t with
         | x :: l => (c :: x) :: l
         | [] => [[c]]
         end
  end.

(** What the loader raises: [IndexError] on a short row, or what [add]
    raised. *)
Inductive load_error :=
| IndexError
| Raised (e : exn).

(** The running program: the store of contacts, the next free reference,
    the phone book. *)
Record loader := { store : heap; fresh : ref; book : Phonebook }.

Section Loader.

Context {U : UnicodeDB}.

(** [full_name[i] if len(full_name) > i else None] *)
Definition name_part (full_name : list str) (i : nat) : value :=
  match nth_error full_name i with
  | Some x => VStr x
  | None => VNone
  end.

(** [x.strip() if len(x.strip()) else None] *)
Definition text_or_none (x : str) : value :=
  if Nat.eqb (length (strip x)) 0 then VNone else VStr (strip x).

(** The [Contact(...)] expression of lines 185-193; the arguments are
    evaluated in the order written. *)
Definition contact_of_row (row : list str) : load_error + Contact :=
  let full_name := split (ch " ") (strip (join (py " ") (firstn 3 row))) in
  let last_name := name_part full_name 0 in
  let first_name := name_part full_name 1 in
  let surname := name_part full_name 2 in
  match nth_error row 3 with
  | None => inl IndexError
  | Some r3 =>
    let org := text_or_none r3 in
    match nth_error row 4 with
    | None => inl IndexError
    | Some r4 =>
      let position := text_or_none r4 in
      match nth_error row 5 with
      | None => inl IndexError
      | Some r5 =>
        let phone := match parse_ru r5 with Some p => VPhone p | None => VNone end in
        match nth_error row 6 with
        | None => inl IndexError
        | Some r6 =>
          match Email_parse r6 with
          | Raise e => inl (Raised e)
          | Ok email =>
            inr (Contact_init first_name last_name surname org position phone
                              (match email with Some e => VEmail e | None => VNone end))
          end
        end
      end
    end
  end.

(** The loop of line 183 over the rows after the header: each row makes
    a new contact and adds it.  An exception ends the loop and leaves the
    program as it was when it was raised. *)
Fixpoint load_rows (rows : list (list str)) (st : loader) : load_error * loader + loader :=
  match rows with
  | [] => inr st
  | row :: t =>
    match contact_of_row row with
    | inl e => inl (e, st)
    | inr c =>
      let st1 := {| store := update (store st) (fresh st) c;
                    fresh := S (fresh st);
                    book := book st |} in
      match add (store st1) (book st) (fresh st) with
      | Raise e => inl (Raised e, st1)
      | Ok (pb, _) =>
        load_rows t {| store := store st1; fresh := fresh st1; book := pb |}
      end
    end
  end.

(** [islice(rows, 1, None)]: the header row is passed over. *)
Definition load_csv_rows (rows : list (list str)) (st : loader) : load_error * loader + loader :=
  load_rows (tl rows) st.

End Loader.

(** ** The shape of a valid e-mail address *)

(** [[A-Za-z0-9._%+-]], [[A-Za-z0-9.-]] and [[A-Z|a-z]] *)
Definition EMAIL_LOCAL : list item :=
  [Span (ch "A") (ch "Z"); Span (ch "a") (ch "z"); Span (ch "0") (ch "9")] ++ ones "._%+-".
Definition EMAIL_DOMAIN : list item :=
  [Span (ch "A") (ch "Z"); Span (ch "a") (ch "z"); Span (ch "0") (ch "9")] ++ ones ".-".
Definition EMAIL_TLD : list item :=
  [Span (ch "A") (ch "Z"); One (ch "|"); Span (ch "a") (ch "z")].

Section EmailShape.

Context {U : UnicodeDB}.

(** The text starts with a local part, [@], a domain, a dot and a last
    label of two characters or more; the first character is a word
    character, and a word ends or starts right after the last label
    ([after tld None] is its last character). *)
Definition email_shape (s : str) : Prop :=
  exists local dom tld tail,
    s = local ++ ch "@" :: dom ++ ch "." :: tld ++ tail
    /\ local <> [] /\ forallb (set_has EMAIL_LOCAL) local = true
    /\ dom <> [] /\ forallb (set_has EMAIL_DOMAIN) dom = true
    /\ (2 <= length tld)%nat /\ forallb (set_has EMAIL_TLD) tld = true
    /\ wordp (hd_error local) = true
    /\ xorb (wordp (after tld None)) (wordp (hd_error tail)) = true.

End EmailShape.

(** ** Auxiliary notions of the proofs, continued *)

(** What [__str__] appends for the extension. *)
Definition ext_text (ext : option str) : str :=
  match ext with
  | Some e => if str_eqb e [] then [] else py " доб." ++ e
  | None => []
  end.


(** A fact of every Unicode database that the embedding does not fix: the
    letters of the extension marker are no decimal digits. *)
Definition letters_are_not_digits {U : UnicodeDB} : Prop :=
  forallb (fun c => negb (isdecimal c)) (py "добавчный") = true.

(** The ten digits [ds], written the way [Phone.__str__] writes them. *)
Definition w_display (ds : str) : writing :=
  {| plus := true; lead := ch "7";
     groups := combine [py "("; []; []; py ")"; []; []; py "-"; []; py "-"; []] ds |}.

(** A field that [text_or_none] can give: [None], or a non-empty text
    with nothing left to strip. *)
Definition clean_or_none {U : UnicodeDB} (v : value) : Prop :=
  v = VNone \/ exists t, v = VStr t /\ t <> [] /\ strip t = t.

(** A name that [split] can give: [None] (when allowed), or a text
    without a space. *)
Definition word_or_none (v : value) : Prop :=
  v = VNone \/ exists t, v = VStr t /\ ~ List.In (ch " ") t.

(** The records that [load_csv_file] builds. *)
Definition well_formed {U : UnicodeDB} (c : Contact) : Prop :=
  (exists l, last_name c = VStr l /\ ~ List.In (ch " ") l)
  /\ word_or_none (first_name c) /\ word_or_none (surname c)
  /\ clean_or_none (org c) /\ clean_or_none (position c)
  /\ (phone c = VNone
      \/ exists p, phone c = VPhone p /\ int_code p = 7%Z /\ length (number p) = 10%nat
                   /\ forallb isdecimal (number p) = true)
  /\ (email c = VNone
      \/ exists e, email c = VEmail e /\ is_valid (address e) = true
                   /\ strip (address e) = address e).

(** The names of the row, as the loader joins them. *)
Definition row_names {U : UnicodeDB} (row : list str) : str :=
  strip (join (py " ") (firstn 3 row)).

(** The references a phone book holds were all handed out: they lie below
    the next free one. *)
Definition below (n : ref) (pb : Phonebook) : Prop :=
  (forall r, List.In r (_list pb) -> (r < n)%nat)
  /\ (forall cf, List.In cf (conflicts pb) -> (dest cf < n)%nat).

(** ** Sample rows *)

(** The two rows of one person: the second brings organization and
    position. *)
Definition row_first : list str :=
  map py ["Ivanov"; "Ivan"; ""; ""; ""; "+7 999 111 22 33"; "ivan@x.com"]%string.
Definition row_second : list str :=
  map py ["Ivanov"; "Ivan"; ""; "Acme"; "Engineer"; "+7 999 111 22 33"; ""]%string.

(** A program that has built nothing yet. *)
Definition loader_init : loader :=
  {| store := store_of []; fresh := 0%nat; book := Phonebook_init |}.

(** The phone book after adding [ivanov], [petrov] and a bare [sidorov]. *)
Definition book_three : Phonebook :=
  {| _list := [0%nat; 2%nat];
     _hash := [(mail_a, 0%nat); (VStr (py "IvanovIvan"), 0%nat);
               (VStr (py "SidorovSidor"), 2%nat)];
     conflicts := [{| source := 0%nat; dest := 1%nat; resolved := false |}] |}.

Definition phone_ext : Phone :=
  {| int_code := 7; number := py "4959130478"; ext_code := Some (py "0792") |}.

(** Two namesakes, each with a middle name, a phone and an e-mail of his
    own, and the phone book after the first and after both. *)
Definition mail_b : value := VEmail {| address := py "b@x.com" |}.
Definition tel_a : value :=
  VPhone {| int_code := 7; number := py "9991112233"; ext_code := None |}.
Definition tel_b : value :=
  VPhone {| int_code := 7; number := py "4951234567"; ext_code := None |}.
Definition kuznetsov (middle tel mail : value) : Contact :=
  Contact_init (VStr (py "Kuzma")) (VStr (py "Kuznetsov")) middle VNone VNone tel mail.
Definition namesakes : heap :=
  store_of [kuznetsov (VStr (py "Ivanovich")) tel_a mail_a;
            kuznetsov (VStr (py "Petrovich")) tel_b mail_b].
Definition book_one : Phonebook :=
  {| _list := [0%nat];
     _hash := [(mail_a, 0%nat); (tel_a, 0%nat); (VStr (py "KuznetsovKuzma"), 0%nat)];
     conflicts := [] |}.
Definition book_two : Phonebook :=
  {| _list := [0%nat; 1%nat];
     _hash := [(mail_a, 0%nat); (tel_a, 0%nat); (VStr (py "KuznetsovKuzma"), 1%nat);
               (mail_b, 1%nat); (tel_b, 1%nat)];
     conflicts := [] |}.

(** A second person, with a phone and an e-mail of his own. *)
Definition row_other : list str :=
  map py ["Petrov"; "Petr"; "Petrovich"; ""; ""; "8 (495) 123-45-67"; "petr@x.com"]%string.

(** The program after loading [row_first], [row_other] and [row_second]:
    two people accepted, the third row set aside as a duplicate of the
    first by its phone. *)
Definition loaded_three : loader :=
  let tel := VPhone {| int_code := 7; number := py "9991112233"; ext_code := None |} in
  let mail := VEmail {| address := py "ivan@x.com" |} in
  let mail' := VEmail {| address := py "petr@x.com" |} in
  let c0 := Contact_init (VStr (py "Ivan")) (VStr (py "Ivanov")) VNone VNone VNone tel mail in
  let c1 := Contact_init (VStr (py "Petr")) (VStr (py "Petrov")) (VStr (py "Petrovich"))
                         VNone VNone tel_b mail' in
  let c2 := Contact_init (VStr (py "Ivan")) (VStr (py "Ivanov")) VNone
                         (VStr (py "Acme")) (VStr (py "Engineer")) tel VNone in
  {| store := update (update (update (store_of []) 0%nat c0) 1%nat c1) 2%nat c2;
     fresh := 3%nat;
     book := {| _list := [0%nat; 1%nat];
                _hash := [(mail, 0%nat); (tel, 0%nat); (VStr (py "IvanovIvan"), 0%nat);
                          (mail', 1%nat); (tel_b, 1%nat); (VStr (py "PetrovPetr"), 1%nat)];
                conflicts := [{| source := 0%nat; dest := 2%nat; resolved := false |}] |} |}.
(** * Proofs *)

(** ** The matcher finds exactly the matches *)

Lemma cursor_eta (b : cursor) : {| prev := prev b; rest := rest b; caps := caps b |} = b.
Proof. now destruct b. Qed.

Lemma moved_eq u a b :
  moved u a b -> b = {| prev := after u (prev a); rest := rest b; caps := caps a |}.
Proof. intros (_ & Hp & Hc). rewrite <- Hp, <- Hc. symmetry. apply cursor_eta. Qed.

Section EngineFacts.

Context {U : UnicodeDB}.
Variable A : Type.

Lemma many_sound set : forall s n p (k : option char -> str -> option A) x,
  many set n p s k = Some x ->
  exists u v, s = u ++ v /\ (n <= length u)%nat /\ forallb (set_has set) u = true
              /\ k (after u p) v = Some x.
Proof.
  induction s as [|c t IH]; intros n p k x H; simpl in H.
  - destruct n; [|discriminate]. exists [], []. simpl. auto.
  - assert (Hstop : match n with O => k p (c :: t) | S _ => None end = Some x ->
                    exists u v, c :: t = u ++ v /\ (n <= length u)%nat
                                /\ forallb (set_has set) u = true /\ k (after u p) v = Some x).
    { intros Hs. destruct n; [|discriminate]. exists [], (c :: t). simpl. auto. }
    destruct (set_has set c) eqn:Hc; [|auto].
    destruct (many set (pred n) (Some c) t k) as [y|] eqn:Hm; [|auto].
    injection H as ->. apply IH in Hm. destruct Hm as (u & v & -> & Hn & Hall & Hk).
    exists (c :: u), v. simpl. rewrite Hc, Hall. repeat split; auto. lia.
Qed.

Lemma many_complete set : forall u n p v (k : option char -> str -> option A) x,
  forallb (set_has set) u = true -> (n <= length u)%nat -> k (after u p) v = Some x ->
  exists y, many set n p (u ++ v) k = Some y.
Proof.
  induction u as [|c u IH]; intros n p v k x Hall Hn Hk; simpl in *.
  - assert (n = O) by lia. subst n.
    destruct v as [|d v]; simpl; [eauto|].
    destruct (set_has set d); [|eauto].
    destruct (many set 0 (Some d) v k); eauto.
  - apply andb_true_iff in Hall. destruct Hall as [Hc Hall]. rewrite Hc.
    destruct (IH (pred n) (Some c) v k x Hall ltac:(lia) Hk) as [y Hy].
    rewrite Hy. eauto.
Qed.

Lemma times_sound (body : cursor -> (cursor -> option A) -> option A) R :
  (forall a k x, body a k = Some x -> exists b, R a b /\ k b = Some x) ->
  forall n a k x, times n body a k = Some x -> exists b, iter n R a b /\ k b = Some x.
Proof.
  intros Hbody. induction n as [|n IH]; intros a k x H; simpl in *.
  - eauto.
  - apply Hbody in H. destruct H as (mid & HR & H). apply IH in H.
    destruct H as (b & Hi & Hk). eauto.
Qed.

Lemma times_complete (body : cursor -> (cursor -> option A) -> option A) R :
  (forall a b k x, R a b -> k b = Some x -> exists y, body a k = Some y) ->
  forall n a b k x, iter n R a b -> k b = Some x -> exists y, times n body a k = Some y.
Proof.
  intros Hbody. induction n as [|n IH]; intros a b k x Hi Hk; simpl in *.
  - subst b. eauto.
  - destruct Hi as (mid & HR & Hi).
    destruct (IH _ _ _ _ Hi Hk) as [y Hy].
    eapply Hbody; eauto.
Qed.

(** Whatever [run] answers comes from a match of the pattern that the
    continuation accepts. *)
Lemma run_sound : forall r a (k : cursor -> option A) x,
  run r a k = Some x -> exists b, Sem r a b /\ k b = Some x.
Proof.
  induction r as [c|set| |r1 IH1 r2 IH2|r1 IH1|n set|n r1 IH1|i r1 IH1];
    intros a k x H; simpl in H.
  - destruct (rest a) as [|y t] eqn:Hr; [discriminate|].
    destruct (N.eqb_spec y c); [subst y|discriminate].
    eexists. split; [|exact H]. simpl. unfold moved. simpl. auto.
  - destruct (rest a) as [|y t] eqn:Hr; [discriminate|].
    destruct (set_has set y) eqn:Hy; [|discriminate].
    eexists. split; [|exact H]. simpl. exists y. unfold moved. simpl. auto.
  - destruct (xorb _ _) eqn:Hx; [|discriminate]. exists a. simpl. auto.
  - apply IH1 in H. destruct H as (mid & H1 & H). apply IH2 in H.
    destruct H as (b & H2 & H). exists b. simpl. eauto.
  - destruct (run r1 a k) as [y|] eqn:Hy.
    + injection H as ->. apply IH1 in Hy. destruct Hy as (b & Hb & Hk).
      exists b. simpl. auto.
    + exists a. simpl. auto.
  - apply many_sound in H. destruct H as (u & v & Hr & Hn & Hall & Hk).
    eexists. split; [|exact Hk]. simpl. exists u. unfold moved. simpl. auto.
  - apply times_sound with (R := Sem r1) in H; auto.
  - apply IH1 in H. destruct H as (mid & Hm & Hk). exists (capture i a mid). simpl. eauto.
Qed.

(** Every match that the continuation accepts makes [run] answer. *)
Lemma run_complete : forall r a b (k : cursor -> option A) x,
  Sem r a b -> k b = Some x -> exists y, run r a k = Some y.
Proof.
  induction r as [c|set| |r1 IH1 r2 IH2|r1 IH1|n set|n r1 IH1|i r1 IH1];
    intros a b k x HS Hk; simpl in HS |- *.
  - pose proof (moved_eq HS) as Eb. destruct HS as (Hr & _ & _). simpl in *.
    rewrite Hr. rewrite N.eqb_refl. rewrite Eb in Hk. simpl in Hk. eauto.
  - destruct HS as (c & Hc & HS).
    pose proof (moved_eq HS) as Eb. destruct HS as (Hr & _ & _). simpl in *.
    rewrite Hr, Hc. rewrite Eb in Hk. simpl in Hk. eauto.
  - destruct HS as [-> Hx]. rewrite Hx. eauto.
  - destruct HS as (mid & H1 & H2).
    destruct (IH2 _ _ _ _ H2 Hk) as [y Hy].
    eapply IH1; eauto.
  - destruct HS as [HS| ->].
    + destruct (IH1 _ _ _ _ HS Hk) as [y Hy]. rewrite Hy. eauto.
    + destruct (run r1 a k); eauto.
  - destruct HS as (u & Hn & Hall & HS).
    pose proof (moved_eq HS) as Eb. destruct HS as (Hr & _ & _).
    rewrite Hr. eapply many_complete; eauto.
    rewrite Eb in Hk. exact Hk.
  - eapply times_complete with (R := Sem r1); eauto.
  - destruct HS as (mid & HS & ->). eapply IH1; eauto.
Qed.

End EngineFacts.

(** ** search *)

Section SearchFacts.

Context {U : UnicodeDB}.

Lemma after_app u v p : after (u ++ v) p = after v (after u p).
Proof. apply fold_left_app. Qed.

Lemma scan_sound r : forall s p m,
  scan r p s = Some m ->
  exists pre suf, s = pre ++ suf
    /\ run r {| prev := after pre p; rest := suf; caps := [] |} (fun x => Some x) = Some m.
Proof.
  induction s as [|c t IH]; intros p m H; simpl in H.
  - destruct (run r _ _) eqn:E; [|discriminate].
    injection H as ->. exists [], []. auto.
  - destruct (run r _ _) eqn:E.
    + injection H as ->. exists [], (c :: t). auto.
    + apply IH in H. destruct H as (pre & suf & -> & H).
      exists (c :: pre), suf. auto.
Qed.

Lemma scan_complete r : forall pre suf p m,
  run r {| prev := after pre p; rest := suf; caps := [] |} (fun x => Some x) = Some m ->
  exists m', scan r p (pre ++ suf) = Some m'.
Proof.
  induction pre as [|c pre IH]; intros suf p m H; simpl in *.
  - destruct suf; simpl; rewrite H; eauto.
  - destruct (run r {| prev := p; rest := c :: pre ++ suf; caps := [] |} _); eauto.
Qed.

(** A match at the first position is the one [search] reports. *)
Lemma scan_here r s p m :
  run r {| prev := p; rest := s; caps := [] |} (fun x => Some x) = Some m ->
  scan r p s = Some m.
Proof. intros H. destruct s; simpl; now rewrite H. Qed.

End SearchFacts.

(** ** The matches of [RE_PHONE] *)

Lemma firstn_consumed (u v : str) : firstn (length (u ++ v) - length v) (u ++ v) = u.
Proof.
  rewrite length_app. replace (length u + length v - length v)%nat with (length u) by lia.
  rewrite firstn_app, Nat.sub_diag, firstn_all. simpl. apply app_nil_r.
Qed.

Lemma capture_caps i a b u :
  rest a = u ++ rest b -> caps (capture i a b) = (i, u) :: caps b.
Proof. intros H. unfold capture. simpl. now rewrite H, firstn_consumed. Qed.

Section PhoneFacts.

Context {U : UnicodeDB}.

Lemma sub_empty_nondigit s : sub_empty [NonDigit] s = filter isdecimal s.
Proof.
  unfold sub_empty. apply filter_ext. intros c. simpl.
  rewrite orb_false_r. apply negb_involutive.
Qed.

Lemma separator_not_decimal c : set_has SEPARATOR c = true -> isdecimal c = false.
Proof.
  change SEPARATOR with [Space; One 40; One 41; One 45]. simpl.
  rewrite orb_false_r. intros H.
  destruct (isdecimal c) eqn:Hd; [|reflexivity].
  rewrite (isdecimal_not_space _ Hd) in H. simpl in H.
  repeat (apply orb_true_iff in H; destruct H as [H|H]);
    apply N.eqb_eq in H; subst c; rewrite isdecimal_ascii in Hd by lia; discriminate.
Qed.

Lemma lead_spec c : set_has (ones "78") c = true <-> c = 55 \/ c = 56.
Proof.
  change (ones "78") with [One 55; One 56]. simpl. rewrite orb_false_r, orb_true_iff.
  now rewrite !N.eqb_eq.
Qed.

Lemma filter_written g : well_written g -> filter isdecimal (written g) = [snd g].
Proof.
  intros [Hs Hd]. unfold written. rewrite filter_app. simpl. rewrite Hd.
  replace (filter isdecimal (fst g)) with (@nil char); [reflexivity|].
  symmetry. induction (fst g) as [|c t IH]; [reflexivity|]. simpl in *.
  apply andb_true_iff in Hs. destruct Hs as [Hc Ht].
  rewrite (separator_not_decimal _ Hc). auto.
Qed.

(** The digits of a number are what is left when the separators go. *)
Lemma filter_spell gs : Forall well_written gs -> filter isdecimal (spell gs) = digits_of gs.
Proof.
  induction 1 as [|g gs Hg _ IH]; [reflexivity|].
  unfold spell, digits_of in *. simpl. rewrite filter_app, IH, filter_written; auto.
Qed.

Lemma one_digit_inv a b :
  Sem ONE_DIGIT a b ->
  exists g, well_written g /\ rest a = written g ++ rest b
            /\ prev b = Some (snd g)
            /\ caps b = (3%nat, written g) :: caps a.
Proof.
  unfold ONE_DIGIT. cbn [Sem].
  intros (mid & (m1 & (u & _ & Hu & Hm1) & (c & Hc & Hm2)) & ->).
  simpl in Hc. rewrite orb_false_r in Hc.
  destruct Hm1 as (R1 & P1 & C1). destruct Hm2 as (R2 & P2 & C2). simpl in R2.
  exists (u, c). unfold well_written, written. simpl.
  assert (E : rest a = (u ++ [c]) ++ rest mid) by (rewrite R1, R2, <- app_assoc; reflexivity).
  repeat split; auto.
  rewrite E at 1 2. rewrite firstn_consumed, C2, C1. reflexivity.
Qed.

Lemma one_digit_intro g a tail :
  well_written g -> rest a = written g ++ tail ->
  exists b, Sem ONE_DIGIT a b /\ rest b = tail.
Proof.
  intros [Hs Hd] Hr. unfold written in Hr.
  set (m1 := {| prev := after (fst g) (prev a); rest := snd g :: tail; caps := caps a |}).
  set (m2 := {| prev := Some (snd g); rest := tail; caps := caps a |}).
  exists (capture 3 a m2). split; [|reflexivity].
  unfold ONE_DIGIT. cbn [Sem]. exists m2. split; [|reflexivity].
  exists m1. split.
  - exists (fst g). repeat split; simpl; auto; try lia.
    now rewrite Hr, <- app_assoc.
  - exists (snd g). split; [simpl; now rewrite Hd|]. repeat split; reflexivity.
Qed.

Lemma digits_inv : forall n a b,
  iter n (Sem ONE_DIGIT) a b ->
  exists gs l, length gs = n /\ Forall well_written gs /\ rest a = spell gs ++ rest b
               /\ caps b = l ++ caps a /\ only_group 3 l.
Proof.
  induction n as [|n IH]; intros a b H; simpl in H.
  - subst b. exists [], []. repeat split; auto. constructor.
  - destruct H as (mid & H1 & H2). apply one_digit_inv in H1. apply IH in H2.
    destruct H1 as (g & Hg & R1 & _ & C1).
    destruct H2 as (gs & l & Hn & Hgs & R2 & C2 & Hl).
    exists (g :: gs), (l ++ [(3%nat, written g)]). repeat split.
    + simpl. congruence.
    + now constructor.
    + unfold spell in *. simpl. now rewrite R1, R2, <- app_assoc.
    + now rewrite C2, C1, <- app_assoc.
    + apply Forall_app. split; [assumption|]. now repeat constructor.
Qed.

Lemma digits_intro : forall gs a tail,
  Forall well_written gs -> rest a = spell gs ++ tail ->
  exists b, iter (length gs) (Sem ONE_DIGIT) a b /\ rest b = tail.
Proof.
  induction gs as [|g gs IH]; intros a tail Hall Hr; simpl.
  - exists a. auto.
  - inversion Hall as [|? ? Hg Hgs]; subst.
    unfold spell in Hr. simpl in Hr. rewrite <- app_assoc in Hr.
    destruct (one_digit_intro _ _ Hg Hr) as (mid & Hm & Rm).
    destruct (IH mid tail Hgs Rm) as (b & Hb & Rb).
    exists b. split; [exists mid|]; auto.
Qed.

Lemma group_skip i l rest0 :
  Forall (fun e => fst e <> i) l ->
  find (fun e : nat * str => Nat.eqb (fst e) i) (l ++ rest0)
  = find (fun e : nat * str => Nat.eqb (fst e) i) rest0.
Proof.
  induction 1 as [|e l He _ IH]; [reflexivity|]. simpl.
  destruct (Nat.eqb_spec (fst e) i); [contradiction|assumption].
Qed.

(** Every match of [RE_PHONE]: an optional plus sign, 7 or 8, ten
    written digits in group 2, and the extension. *)
Lemma RE_PHONE_inv a m :
  caps a = [] -> Sem RE_PHONE a m ->
  exists plus lead gs tail,
    rest a = plus ++ lead :: spell gs ++ tail
    /\ (plus = [] \/ plus = [43]) /\ (lead = 55 \/ lead = 56)
    /\ length gs = 10%nat /\ Forall well_written gs
    /\ group m 2 = Some (spell gs)
    /\ extension m tail.
Proof.
  intros Ca. unfold RE_PHONE. cbn [Sem]. fold ONE_DIGIT.
  intros (a1 & Hplus & a2 & (a1' & (lead & Hlead & Hm1) & ->) & a3
          & (mid & Hdig & ->) & Hext).
  apply lead_spec in Hlead. apply digits_inv in Hdig.
  destruct Hdig as (gs & l & Hn & Hgs & Rd & Cd & Hl).
  destruct Hm1 as (R1 & _ & C1).
  assert (Hp : exists plus, rest a = plus ++ rest a1 /\ (plus = [] \/ plus = [43])
                            /\ caps a1 = []).
  { destruct Hplus as [(R & _ & C)| ->].
    - exists [43]. change (ch "+") with 43 in R. split; [assumption|]. split; [auto|congruence].
    - exists []. auto. }
  destruct Hp as (plus & Rp & Hp & C0).
  assert (C3 : caps (capture 2 (capture 1 a1 a1') mid)
               = (2%nat, spell gs) :: l ++ [(1%nat, [lead])]).
  { rewrite (capture_caps 2 _ _ _ Rd), Cd, (capture_caps 1 _ _ _ R1), C1, C0. reflexivity. }
  assert (N5 : find (fun e : nat * str => Nat.eqb (fst e) 5)
                 ((2%nat, spell gs) :: l ++ [(1%nat, [lead])]) = None).
  { simpl. rewrite group_skip; [reflexivity|].
    eapply Forall_impl; [|exact Hl]. simpl. intros e He. rewrite He. discriminate. }
  simpl in Rd.
  destruct Hext as [(x & (y & (marks & _ & _ & Hmk) & (z & (ds & Hnd & Hds & Hmd) & ->)) & ->)| ->].
  - destruct Hmk as (Rk & _ & Ck). destruct Hmd as (Rz & _ & Cz). simpl in Rk.
    exists plus, lead, gs, (marks ++ ds ++ rest z).
    repeat split; auto.
    + rewrite Rp, R1, Rd. simpl. rewrite Rk, Rz. reflexivity.
    + unfold group. rewrite (capture_caps 4 _ (capture 5 y z) (marks ++ ds)).
      2:{ simpl. now rewrite Rk, Rz, <- app_assoc. }
      rewrite (capture_caps 5 _ _ _ Rz), Cz, Ck, C3. reflexivity.
    + right. exists marks, ds. repeat split.
      * destruct ds; [simpl in Hnd; lia|discriminate].
      * rewrite <- Hds. clear. induction ds as [|c t IH]; [reflexivity|].
        simpl. now rewrite orb_false_r, IH.
      * unfold group. rewrite (capture_caps 4 _ (capture 5 y z) (marks ++ ds)).
        2:{ simpl. now rewrite Rk, Rz, <- app_assoc. }
        rewrite (capture_caps 5 _ _ _ Rz). reflexivity.
  - exists plus, lead, gs, (rest mid).
    repeat split; auto.
    + rewrite Rp, R1, Rd. reflexivity.
    + unfold group. rewrite C3. reflexivity.
    + left. split; [|reflexivity]. unfold group. rewrite C3, N5. reflexivity.
Qed.

(** Conversely, a leading 7 or 8 and ten written digits can be matched. *)
Lemma RE_PHONE_intro a lead gs tail :
  rest a = lead :: spell gs ++ tail -> (lead = 55 \/ lead = 56) ->
  length gs = 10%nat -> Forall well_written gs ->
  exists m, Sem RE_PHONE a m.
Proof.
  intros Hr Hlead Hn Hgs.
  set (a1 := {| prev := Some lead; rest := spell gs ++ tail; caps := caps a |}).
  destruct (digits_intro (capture 1 a a1) tail Hgs eq_refl) as (mid & Hmid & _).
  rewrite Hn in Hmid.
  exists (capture 2 (capture 1 a a1) mid).
  unfold RE_PHONE. cbn [Sem]. fold ONE_DIGIT.
  exists a. split; [now right|].
  exists (capture 1 a a1). split.
  - exists a1. split; [|reflexivity]. exists lead. split; [now apply lead_spec|].
    repeat split; assumption.
  - exists (capture 2 (capture 1 a a1) mid). split; [|now right].
    exists mid. auto.
Qed.

End PhoneFacts.

(** ** [Phone.parse_ru] *)

Lemma str_eqb_eq a : forall b, str_eqb a b = true <-> a = b.
Proof.
  induction a as [|x a IH]; intros [|y b]; simpl; split; intros H;
    try reflexivity; try discriminate.
  - apply andb_true_iff in H. destruct H as [H1 H2].
    apply N.eqb_eq in H1. apply IH in H2. congruence.
  - injection H as -> ->. rewrite N.eqb_refl. now apply IH.
Qed.

Lemma str_eqb_refl a : str_eqb a a = true.
Proof. now apply str_eqb_eq. Qed.

Lemma opt_str_eqb_eq a b : opt_str_eqb a b = true <-> a = b.
Proof.
  destruct a, b; simpl; split; intros H; try reflexivity; try discriminate.
  - apply str_eqb_eq in H. congruence.
  - injection H as ->. apply str_eqb_refl.
Qed.

(** [len(match.groups())] is 5: the test of line 90 always holds. *)
Lemma RE_PHONE_ngroups : ngroups RE_PHONE = 5%nat.
Proof. reflexivity. Qed.

Section ParseFacts.

Context {U : UnicodeDB}.

Lemma search_phone_inv s m :
  re_search RE_PHONE s = Some m ->
  exists pre plus lead gs tail,
    s = pre ++ plus ++ lead :: spell gs ++ tail
    /\ (plus = [] \/ plus = [43]) /\ (lead = 55 \/ lead = 56)
    /\ length gs = 10%nat /\ Forall well_written gs
    /\ group m 2 = Some (spell gs)
    /\ extension m tail.
Proof.
  intros H. apply scan_sound in H. destruct H as (pre & suf & -> & H).
  apply run_sound in H. destruct H as (b & HS & Hb). injection Hb as ->.
  apply RE_PHONE_inv in HS; [|reflexivity].
  destruct HS as (plus & lead & gs & tail & Hr & HS). simpl in Hr. subst suf.
  exists pre, plus, lead, gs, tail. auto.
Qed.

(** Group 2 takes part in every match: [re.sub] on line 89 is given a
    string. *)
Lemma parse_ru_group2 s m : re_search RE_PHONE s = Some m -> group m 2 <> None.
Proof.
  intros H. apply search_phone_inv in H.
  destruct H as (_ & _ & _ & gs & _ & _ & _ & _ & _ & _ & H & _). congruence.
Qed.

Lemma parse_ru_inv s p :
  parse_ru s = Some p ->
  exists pre plus lead gs tail m,
    s = pre ++ plus ++ lead :: spell gs ++ tail
    /\ (plus = [] \/ plus = [43]) /\ (lead = 55 \/ lead = 56)
    /\ length gs = 10%nat /\ Forall well_written gs
    /\ extension m tail
    /\ p = {| int_code := 7; number := digits_of gs; ext_code := group m 5 |}.
Proof.
  unfold parse_ru. destruct (re_search RE_PHONE s) as [m|] eqn:Hs; [|discriminate].
  apply search_phone_inv in Hs.
  destruct Hs as (pre & plus & lead & gs & tail & Hs & Hp & Hl & Hn & Hg & H2 & Hx).
  rewrite H2. simpl. intros H. injection H as <-.
  exists pre, plus, lead, gs, tail, m. repeat split; auto.
  unfold Phone_init. rewrite !sub_empty_nondigit, filter_spell by assumption.
  f_equal. rewrite <- (filter_spell Hg). clear.
  induction (spell gs) as [|c t IH]; [reflexivity|]. simpl.
  destruct (isdecimal c) eqn:E; simpl; rewrite ?E; congruence.
Qed.

Lemma parse_ru_some_at pre suf m :
  Sem RE_PHONE {| prev := after pre None; rest := suf; caps := [] |} m ->
  exists p, parse_ru (pre ++ suf) = Some p.
Proof.
  intros HS.
  destruct (run_complete RE_PHONE _ _ (fun x => Some x) HS eq_refl) as (y & Hy).
  destruct (scan_complete _ _ _ _ Hy) as (m' & Hm').
  unfold parse_ru, re_search. rewrite Hm'.
  destruct (group m' 2) eqn:E.
  - simpl. eauto.
  - now apply parse_ru_group2 in Hm'.
Qed.

Lemma national_form_parses s : national_form (py "78") s -> exists p, parse_ru s = Some p.
Proof.
  intros (pre & lead & body & post & -> & Hl & gs & Hn & Hg & ->).
  assert (Hl' : lead = 55 \/ lead = 56).
  { change (py "78") with [55; 56] in Hl. simpl in Hl. intuition. }
  destruct (RE_PHONE_intro {| prev := after pre None; rest := lead :: spell gs ++ post;
                              caps := [] |} post eq_refl Hl' Hn Hg) as (m & Hm).
  eapply parse_ru_some_at; eauto.
Qed.

(** A number written out in full, and nothing around it, parses to its
    digits. *)
Lemma parse_ru_written plus lead gs :
  (plus = [] \/ plus = py "+") -> (lead = ch "7" \/ lead = ch "8") ->
  length gs = 10%nat -> Forall well_written gs ->
  parse_ru (plus ++ lead :: spell gs)
  = Some {| int_code := 7; number := digits_of gs; ext_code := None |}.
Proof.
  intros Hp Hl Hn Hg.
  change (py "+") with [43] in Hp. change (ch "7") with 55 in Hl. change (ch "8") with 56 in Hl.
  set (s := plus ++ lead :: spell gs).
  (* the match starts at the first character *)
  assert (HS : exists m, Sem RE_PHONE {| prev := None; rest := s; caps := [] |} m).
  { destruct Hp as [->| ->].
    - apply RE_PHONE_intro with (lead := lead) (gs := gs) (tail := []); auto.
      simpl. now rewrite app_nil_r.
    - set (a1 := {| prev := Some 43; rest := lead :: spell gs; caps := [] |}).
      destruct (RE_PHONE_intro a1 (lead := lead) (gs := gs) [] ) as (m & Hm); auto.
      { simpl. now rewrite app_nil_r. }
      exists m. revert Hm. unfold RE_PHONE. cbn [Sem].
      intros (a0 & [H0| ->] & Hm).
      + destruct H0 as (R0 & _). simpl in R0. change (ch "+") with 43 in R0.
        injection R0 as E _. destruct Hl; subst lead; discriminate.
      + exists a1. split; [|assumption]. left. repeat split. }
  destruct HS as (m0 & HS).
  destruct (run_complete RE_PHONE _ _ (fun x => Some x) HS eq_refl) as (m & Hm).
  pose proof (scan_here _ _ _ Hm) as Hscan.
  apply run_sound in Hm. destruct Hm as (b & Hb & Eb). injection Eb as ->.
  apply RE_PHONE_inv in Hb; [|reflexivity].
  destruct Hb as (plus' & lead' & gs' & tail & Hr & Hp' & Hl' & Hn' & Hg' & H2 & Hx).
  simpl in Hr. unfold s in Hr.
  (* both readings start alike *)
  assert (E : spell gs = spell gs' ++ tail).
  { destruct Hp as [->| ->], Hp' as [->| ->]; simpl in Hr.
    - now injection Hr.
    - injection Hr as E _. destruct Hl; subst lead; discriminate.
    - injection Hr as E _. destruct Hl'; subst lead'; discriminate.
    - now injection Hr. }
  assert (Ed : digits_of gs = digits_of gs' ++ filter isdecimal tail).
  { rewrite <- (filter_spell Hg), <- (filter_spell Hg'), E. apply filter_app. }
  assert (Et : filter isdecimal tail = []).
  { apply (f_equal (@length char)) in Ed. rewrite length_app in Ed.
    unfold digits_of in Ed. rewrite !length_map in Ed.
    destruct (filter isdecimal tail); [reflexivity|simpl in Ed; lia]. }
  rewrite Et, app_nil_r in Ed.
  assert (E5 : group m 5 = None).
  { destruct Hx as [[H _]|(marks & ds & -> & Hne & Hds & _)]; [assumption|].
    exfalso. rewrite !filter_app in Et.
    apply app_eq_nil in Et. destruct Et as [_ Et].
    apply app_eq_nil in Et. destruct Et as [Et _].
    destruct ds as [|d ds]; [congruence|]. simpl in Hds, Et.
    apply andb_true_iff in Hds. destruct Hds as [Hd _]. rewrite Hd in Et. discriminate. }
  unfold parse_ru, re_search. fold s. rewrite Hscan, H2. simpl.
  unfold Phone_init. rewrite !sub_empty_nondigit, E5, (filter_spell Hg'), Ed.
  f_equal. f_equal. rewrite <- (filter_spell Hg'). clear.
  induction (spell gs') as [|c t IH]; [reflexivity|]. simpl.
  destruct (isdecimal c) eqn:E; simpl; rewrite ?E; congruence.
Qed.

End ParseFacts.

(** ** [str.strip] and [Email] *)

Section EmailFacts.

Context {U : UnicodeDB}.

Lemma lstrip_tidy s : tidy (lstrip s).
Proof.
  induction s as [|c t IH]; simpl; [exact I|].
  destruct (isspace c) eqn:E; [assumption|]. simpl. assumption.
Qed.

Lemma lstrip_id s : tidy s -> lstrip s = s.
Proof. destruct s as [|c t]; simpl; [reflexivity|]. now intros ->. Qed.

Lemma lstrip_suffix s : exists sp, s = sp ++ lstrip s.
Proof.
  induction s as [|c t [sp IH]]; simpl.
  - now exists [].
  - destruct (isspace c).
    + exists (c :: sp). simpl. now rewrite <- IH.
    + now exists [].
Qed.

Lemma tidy_prefix x y : tidy (x ++ y) -> tidy x.
Proof. destruct x; simpl; auto. Qed.

Lemma strip_idempotent s : strip (strip s) = strip s.
Proof.
  unfold strip.
  set (a := lstrip s). set (b := lstrip (rev a)).
  assert (Ha : tidy a) by apply lstrip_tidy.
  assert (Hb : tidy b) by apply lstrip_tidy.
  assert (Hr : tidy (rev b)).
  { destruct (lstrip_suffix (rev a)) as [sp E]. fold b in E.
    apply (f_equal (@rev char)) in E. rewrite rev_involutive, rev_app_distr in E.
    rewrite E in Ha. now apply tidy_prefix in Ha. }
  rewrite (lstrip_id _ Hr), rev_involutive, (lstrip_id _ Hb). reflexivity.
Qed.

Lemma is_valid_strip a : is_valid (strip a) = is_valid a.
Proof. unfold is_valid. now rewrite strip_idempotent. Qed.

(** C8. [Email.parse] answers [None] for an invalid address and never
    raises, while the constructor raises on the same input; for a valid
    address both succeed and hold the stripped address. *)
Theorem Email_parse_lenient_init_strict (a : str) :
  (is_valid a = false ->
     Email_parse a = Ok None
     /\ Email_init a = Raise (Exception "Invalid e-mail address!"))
  /\ (is_valid a = true ->
     Email_parse a = Ok (Some {| address := strip a |})
     /\ Email_init a = Ok {| address := strip a |})
  /\ (forall x, Email_parse a <> Raise x).
Proof.
  unfold Email_parse, Email_init. rewrite is_valid_strip.
  destruct (is_valid a); simpl; repeat split; intros; try discriminate; auto.
Qed.

End EmailFacts.

(** ** [Phone.__eq__] *)

Section PhoneEq.

Context {U : UnicodeDB}.

Lemma Phone_same_triple p q : Phone_same p q = true <-> triple p = triple q.
Proof.
  unfold Phone_same, triple. rewrite !andb_true_iff, Z.eqb_eq, str_eqb_eq, opt_str_eqb_eq.
  split.
  - intros [[-> ->] ->]. reflexivity.
  - intros H. injection H as -> -> ->. auto.
Qed.

Lemma Phone_same_refl p : Phone_same p p = true.
Proof. now apply Phone_same_triple. Qed.

Lemma Phone_same_sym p q : Phone_same p q = Phone_same q p.
Proof.
  destruct (Phone_same p q) eqn:E, (Phone_same q p) eqn:F; try reflexivity.
  - apply Phone_same_triple in E. symmetry in E. apply Phone_same_triple in E. congruence.
  - apply Phone_same_triple in F. symmetry in F. apply Phone_same_triple in F. congruence.
Qed.

(** C9. A phone equals a raw string exactly when the string parses to a
    phone with the same triple; it differs from a string that does not
    parse; and [==] between two phones is reflexive and symmetric. *)
Theorem Phone_eq_string_and_phone (p q : Phone) (s : str) :
  (py_eq (VPhone p) (VStr s) = true
     <-> exists o, parse_ru s = Some o /\ triple o = triple p)
  /\ (parse_ru s = None -> py_eq (VPhone p) (VStr s) = false)
  /\ py_eq (VPhone p) (VPhone p) = true
  /\ py_eq (VPhone p) (VPhone q) = py_eq (VPhone q) (VPhone p).
Proof.
  simpl. repeat split.
  - destruct (parse_ru s) as [o|]; [|discriminate].
    intros H. exists o. split; [reflexivity|]. symmetry. now apply Phone_same_triple.
  - intros (o & -> & H). apply Phone_same_triple. now symmetry.
  - now intros ->.
  - apply Phone_same_refl.
  - apply Phone_same_sym.
Qed.

End PhoneEq.

(** ** The lookup structure *)

Section DictFacts.

Context {U : UnicodeDB}.

Lemma py_eq_refl v : py_eq v v = true.
Proof.
  destruct v; simpl; auto using str_eqb_refl, Phone_same_refl.
Qed.

Lemma key_match_refl k : key_match k k = true.
Proof.
  unfold key_match. rewrite py_eq_refl, andb_true_r. now apply opt_str_eqb_eq.
Qed.

(** A stored key answers one string at most. *)
Lemma key_match_str k m n :
  key_match k (VStr m) = true -> key_match k (VStr n) = true -> m = n.
Proof.
  unfold key_match. rewrite !andb_true_iff, !opt_str_eqb_eq. simpl.
  intros [H1 _] [H2 _]. congruence.
Qed.

Lemma dict_get_set_same d k v : dict_get (dict_set d k v) k = Some v.
Proof.
  induction d as [|[k0 v0] d IH]; simpl.
  - now rewrite key_match_refl.
  - destruct (key_match k0 k) eqn:E; simpl; now rewrite E.
Qed.

(** Assigning [v] anywhere leaves a key that maps to [v] mapping to [v]. *)
Lemma dict_get_set_keep d k k' v :
  dict_get d k = Some v -> dict_get (dict_set d k' v) k = Some v.
Proof.
  induction d as [|[k0 v0] d IH]; simpl; [discriminate|].
  intros H. destruct (key_match k0 k') eqn:E; simpl; destruct (key_match k0 k); auto.
Qed.

Lemma dict_set_fresh d k v : dict_get d k = None -> dict_set d k v = d ++ [(k, v)].
Proof.
  induction d as [|[k0 v0] d IH]; simpl; [reflexivity|].
  destruct (key_match k0 k); [discriminate|]. intros H. now rewrite IH.
Qed.

Lemma dict_get_app d l k r : dict_get d k = Some r -> dict_get (d ++ l) k = Some r.
Proof.
  induction d as [|[k0 v0] d IH]; simpl; [discriminate|].
  destruct (key_match k0 k); auto.
Qed.

Lemma dict_set_app d l k k' v r :
  dict_get d k = Some r -> dict_get d k' = None ->
  dict_get (dict_set (d ++ l) k' v) k = Some r.
Proof.
  induction d as [|[k0 v0] d IH]; simpl; [discriminate|].
  destruct (key_match k0 k') eqn:E'; [discriminate|]. simpl.
  destruct (key_match k0 k); auto.
Qed.

(** Assigning to one name key leaves the other name keys alone. *)
Lemma dict_get_set_other_name d m n v r :
  m <> n -> dict_get d (VStr n) = Some r ->
  dict_get (dict_set d (VStr m) v) (VStr n) = Some r.
Proof.
  intros Hmn. induction d as [|[k0 v0] d IH]; simpl; [discriminate|].
  destruct (key_match k0 (VStr m)) eqn:Em; destruct (key_match k0 (VStr n)) eqn:En;
    simpl; rewrite ?En; auto.
  now destruct (Hmn (key_match_str _ _ _ Em En)).
Qed.

End DictFacts.

(** ** [Phonebook.add] *)

Section AddFacts.

Context {U : UnicodeDB}.

(** The two ways [add] returns. *)
Lemma add_cases h pb c pb' ans :
  add h pb c = Ok (pb', ans) ->
  (exists d, pb' = conflict_with pb d c /\ ans = PyBool false)
  \/ (exists l f, last_name (h c) = VStr l /\ first_name (h c) = VStr f
                  /\ dict_get (_hash pb) (email (h c)) = None
                  /\ dict_get (_hash pb) (phone (h c)) = None
                  /\ pb' = accept h pb c (VStr (l ++ f)) /\ ans = ContactClass).
Proof.
  unfold add.
  destruct (dict_get (_hash pb) (email (h c))) as [d|] eqn:He.
  { intros H. injection H as <- <-. left. eauto. }
  destruct (dict_get (_hash pb) (phone (h c))) as [d|] eqn:Hp.
  { intros H. injection H as <- <-. left. eauto. }
  destruct (last_name (h c)) as [|l| |] eqn:Hl; simpl; try discriminate.
  destruct (first_name (h c)) as [|f| |] eqn:Hf; simpl; try discriminate.
  destruct (dict_get (_hash pb) (VStr (l ++ f))) as [d|].
  - match goal with |- (if ?b then _ else _) = _ -> _ => destruct b end.
    + intros H. injection H as <- <-. left. eauto.
    + intros H. injection H as <- <-. right. exists l, f. repeat split; reflexivity.
  - intros H. injection H as <- <-. right. exists l, f. repeat split; reflexivity.
Qed.

(** C1, what the code does: a duplicate is answered with [False], but an
    accepted record is answered with the class object [Contact], which
    is not a [bool]; the docstring of [add] promises [True]. *)
Theorem add_accepted_returns_class (h : heap) (pb : Phonebook) (c : ref)
        (pb' : Phonebook) (ans : answer) :
  add h pb c = Ok (pb', ans) ->
  (ans = PyBool false /\ _list pb' = _list pb
   /\ exists d, conflicts pb'
                = conflicts pb ++ [{| source := d; dest := c; resolved := false |}])
  \/ (ans = ContactClass /\ _list pb' = _list pb ++ [c] /\ conflicts pb' = conflicts pb).
Proof.
  intros H. apply add_cases in H.
  destruct H as [(d & -> & ->)|(l & f & _ & _ & _ & _ & -> & ->)].
  - left. repeat split. now exists d.
  - right. repeat split.
Qed.

(** [add] never answers [True]. *)
Lemma add_never_true h pb c pb' : add h pb c <> Ok (pb', PyBool true).
Proof.
  intros H. apply add_cases in H.
  destruct H as [(d & _ & H)|(l & f & _ & _ & _ & _ & _ & H)]; discriminate.
Qed.

(** C2. A hit of the e-mail lookup, or else of the phone lookup, makes the
    record a duplicate of the record found: one conflict is appended, the
    accepted records stay as they are, and the answer is [False]. *)
Theorem add_channel_duplicate (h : heap) (pb : Phonebook) (c r : ref) :
  dict_get (_hash pb) (email (h c)) = Some r
  \/ (dict_get (_hash pb) (email (h c)) = None
      /\ dict_get (_hash pb) (phone (h c)) = Some r) ->
  add h pb c
  = Ok ({| _list := _list pb;
           _hash := _hash pb;
           conflicts := conflicts pb ++ [{| source := r; dest := c; resolved := false |}] |},
        PyBool false).
Proof.
  unfold add. intros [->|[-> ->]]; reflexivity.
Qed.

(** C3. With no hit on e-mail or phone and the name key taken by [d], the
    record is a duplicate exactly when a middle name is missing on either
    side or the two are equal; otherwise it is accepted. *)
Theorem add_name_duplicate (h : heap) (pb : Phonebook) (c d : ref) (l f : str) :
  dict_get (_hash pb) (email (h c)) = None ->
  dict_get (_hash pb) (phone (h c)) = None ->
  last_name (h c) = VStr l -> first_name (h c) = VStr f ->
  dict_get (_hash pb) (VStr (l ++ f)) = Some d ->
  ((absent (surname (h d)) \/ absent (surname (h c))
    \/ py_eq (surname (h d)) (surname (h c)) = true)
   <-> add h pb c
       = Ok ({| _list := _list pb;
                _hash := _hash pb;
                conflicts := conflicts pb
                             ++ [{| source := d; dest := c; resolved := false |}] |},
             PyBool false))
  /\ (~ absent (surname (h d)) -> ~ absent (surname (h c)) ->
      py_eq (surname (h d)) (surname (h c)) = false ->
      exists pb', add h pb c = Ok (pb', ContactClass)
                  /\ _list pb' = _list pb ++ [c] /\ conflicts pb' = conflicts pb).
Proof.
  intros He Hp Hl Hf Hn. unfold add, absent. rewrite He, Hp, Hl, Hf. simpl. rewrite Hn.
  destruct (truthy (surname (h d))), (truthy (surname (h c))),
    (py_eq (surname (h d)) (surname (h c))); simpl; split;
    try (split; [reflexivity || intuition discriminate | intuition discriminate]);
    try (intros; exfalso; auto; discriminate);
    try (intros; eexists; split; [reflexivity|split; reflexivity]);
    intuition (try discriminate; auto).
Qed.

End AddFacts.

(** ** What acceptance registers *)

Section RegisterFacts.

Context {U : UnicodeDB}.

Lemma accept_registers h pb c l f :
  last_name (h c) = VStr l -> first_name (h c) = VStr f ->
  let pb' := accept h pb c (VStr (l ++ f)) in
  _list pb' = _list pb ++ [c]
  /\ conflicts pb' = conflicts pb
  /\ (~ absent (email (h c)) -> dict_get (_hash pb') (email (h c)) = Some c)
  /\ (~ absent (phone (h c)) -> dict_get (_hash pb') (phone (h c)) = Some c)
  /\ dict_get (_hash pb') (VStr (l ++ f)) = Some c.
Proof.
  intros Hl Hf. unfold accept, absent. simpl. repeat split.
  - intros He. destruct (truthy (email (h c))); [|congruence].
    apply dict_get_set_keep.
    destruct (truthy (phone (h c))); [apply dict_get_set_keep|]; apply dict_get_set_same.
  - intros Hp. destruct (truthy (phone (h c))); [|congruence].
    apply dict_get_set_keep, dict_get_set_same.
  - apply dict_get_set_same.
Qed.

(** Accepting a record leaves the other name keys where they point. *)
Lemma accept_other_name h pb c m n r :
  dict_get (_hash pb) (email (h c)) = None ->
  dict_get (_hash pb) (phone (h c)) = None ->
  m <> n -> dict_get (_hash pb) (VStr n) = Some r ->
  dict_get (_hash (accept h pb c (VStr m))) (VStr n) = Some r.
Proof.
  intros He Hp Hmn Hn. unfold accept. simpl.
  apply dict_get_set_other_name; [assumption|].
  destruct (truthy (email (h c))), (truthy (phone (h c))); try assumption.
  - rewrite (dict_set_fresh _ _ _ He). now apply dict_set_app.
  - rewrite (dict_set_fresh _ _ _ He). now apply dict_get_app.
  - rewrite (dict_set_fresh _ _ _ Hp). now apply dict_get_app.
Qed.

Lemma last_named_snoc h n l c :
  last_named h n (l ++ [c])
  = if match name_key (h c) with Some m => str_eqb m n | None => false end
    then Some c else last_named h n l.
Proof. unfold last_named. rewrite rev_app_distr. reflexivity. Qed.

(** After any sequence of calls of [add], a name key that some accepted
    record bears maps to the last accepted record that bears it. *)
Lemma name_key_latest h pb :
  Reachable h pb ->
  forall n r, last_named h n (_list pb) = Some r -> dict_get (_hash pb) (VStr n) = Some r.
Proof.
  induction 1 as [|pb c pb' ans _ IH Hadd]; intros n r; [discriminate|].
  apply add_cases in Hadd.
  destruct Hadd as [(d & -> & _)|(l & f & Hl & Hf & He & Hp & -> & _)]; [apply IH|].
  destruct (accept_registers h pb c Hl Hf) as (E & _ & _ & _ & Hn).
  change (_list (accept h pb c (VStr (l ++ f)))) with (_list pb ++ [c]).
  rewrite last_named_snoc. unfold name_key. rewrite Hl, Hf. cbv beta iota.
  destruct (str_eqb _ n) eqn:En.
  - apply str_eqb_eq in En. subst n. intros H. injection H as <-. exact Hn.
  - intros H. apply accept_other_name; auto.
    intros E'. apply str_eqb_eq in E'. congruence.
Qed.

(** C6. An accepted record joins the canonical sequence and is what its
    e-mail key (if present), its phone key (if present) and its name key
    map to from then on, whatever the name key mapped to before; and in
    every phone book built by calls of [add], a name key borne by an
    accepted record maps to the last accepted record that bears it. *)
Theorem add_registers_accepted (h : heap) (pb : Phonebook) :
  Reachable h pb ->
  (forall n r, last_named h n (_list pb) = Some r -> dict_get (_hash pb) (VStr n) = Some r)
  /\ (forall c pb' ans,
        add h pb c = Ok (pb', ans) -> ans <> PyBool false ->
        _list pb' = _list pb ++ [c]
        /\ (~ absent (email (h c)) -> dict_get (_hash pb') (email (h c)) = Some c)
        /\ (~ absent (phone (h c)) -> dict_get (_hash pb') (phone (h c)) = Some c)
        /\ exists l f, last_name (h c) = VStr l /\ first_name (h c) = VStr f
                       /\ dict_get (_hash pb') (VStr (l ++ f)) = Some c).
Proof.
  intros HR. split; [now apply name_key_latest|].
  intros c pb' ans Hadd Hans. apply add_cases in Hadd.
  destruct Hadd as [(d & _ & ->)|(l & f & Hl & Hf & _ & _ & -> & _)]; [congruence|].
  destruct (accept_registers h pb c Hl Hf) as (E & _ & He & Hp & Hn).
  repeat split; auto. exists l, f. auto.
Qed.

End RegisterFacts.

(** ** ASCII text reads the same under every database *)

Lemma Forall_take (A : Type) (P : A -> Prop) (l : list A) :
  Forall P l -> forall n, Forall P (firstn n l).
Proof.
  induction 1 as [|x l Hx _ IH]; intros [|n]; simpl; constructor; auto.
Qed.

Section Ascii.

Variables U1 U2 : UnicodeDB.

Lemma item_has_ascii i c : c < 128 -> @item_has U1 i c = @item_has U2 i c.
Proof.
  intros H. destruct i; simpl; auto;
    now rewrite ?(@isdecimal_ascii U1), ?(@isdecimal_ascii U2),
                ?(@isspace_ascii U1), ?(@isspace_ascii U2) by assumption.
Qed.

Lemma set_has_ascii set c : c < 128 -> @set_has U1 set c = @set_has U2 set c.
Proof.
  intros H. unfold set_has. induction set as [|i set IH]; simpl; [reflexivity|].
  now rewrite IH, (item_has_ascii i H).
Qed.

Lemma wordp_ascii p : ascii_prev p -> @wordp U1 p = @wordp U2 p.
Proof.
  destruct p as [c|]; simpl; [|reflexivity].
  intros H. now rewrite (@isword_ascii U1), (@isword_ascii U2).
Qed.

Lemma sub_empty_ascii set s : ascii_text s -> @sub_empty U1 set s = @sub_empty U2 set s.
Proof.
  unfold sub_empty. induction 1 as [|c s Hc _ IH]; simpl; [reflexivity|].
  now rewrite IH, (set_has_ascii set Hc).
Qed.

Lemma lstrip_ascii s : ascii_text s -> @lstrip U1 s = @lstrip U2 s /\ ascii_text (@lstrip U1 s).
Proof.
  induction 1 as [|c s Hc Hs [IH IH']]; simpl; [split; [reflexivity|constructor]|].
  rewrite (@isspace_ascii U1), (@isspace_ascii U2) by assumption.
  destruct (ascii_space c); [auto|]. split; [reflexivity|now constructor].
Qed.

Lemma strip_ascii s : ascii_text s -> @strip U1 s = @strip U2 s /\ ascii_text (@strip U1 s).
Proof.
  intros H. unfold strip.
  destruct (lstrip_ascii H) as [E1 A1]. rewrite <- E1.
  assert (A2 : ascii_text (rev (@lstrip U1 s))) by now apply Forall_rev.
  destruct (lstrip_ascii A2) as [E2 A3]. rewrite <- E2.
  split; [reflexivity|now apply Forall_rev].
Qed.

Section RunAscii.

Variables (A B : Type) (Q : A -> B -> Prop).

Lemma many_ascii set : forall s n p k1 k2,
  ascii_text s -> ascii_prev p ->
  (forall q t, ascii_prev q -> ascii_text t -> opt_rel Q (k1 q t) (k2 q t)) ->
  opt_rel Q (@many U1 A set n p s k1) (@many U2 B set n p s k2).
Proof.
  induction s as [|c t IH]; intros n p k1 k2 Hs Hp Hk; simpl.
  - destruct n; [now apply Hk|constructor].
  - inversion Hs as [|? ? Hc Ht]; subst.
    assert (Hstop : opt_rel Q (match n with O => k1 p (c :: t) | S _ => None end)
                              (match n with O => k2 p (c :: t) | S _ => None end)).
    { destruct n; [now apply Hk|constructor]. }
    rewrite (set_has_ascii set Hc). destruct (@set_has U2 set c); [|assumption].
    destruct (IH (pred n) (Some c) k1 k2 Ht Hc Hk); [assumption|now constructor].
Qed.

Lemma times_ascii body1 body2 :
  (forall a k1 k2, ascii_cursor a ->
     (forall b, ascii_cursor b -> opt_rel Q (k1 b) (k2 b)) ->
     opt_rel Q (body1 a k1) (body2 a k2)) ->
  forall n a k1 k2, ascii_cursor a ->
    (forall b, ascii_cursor b -> opt_rel Q (k1 b) (k2 b)) ->
    opt_rel Q (@times A n body1 a k1) (@times B n body2 a k2).
Proof.
  intros Hbody. induction n as [|n IH]; intros a k1 k2 Ha Hk; simpl; auto.
Qed.

Lemma ascii_capture i a b : ascii_cursor a -> ascii_cursor b -> ascii_cursor (capture i a b).
Proof.
  intros (_ & Ha & _) (Hp & Hr & Hc). repeat split; simpl; auto.
  constructor; [|assumption]. simpl. now apply Forall_take.
Qed.

Lemma run_ascii : forall r a k1 k2,
  ascii_cursor a ->
  (forall b, ascii_cursor b -> opt_rel Q (k1 b) (k2 b)) ->
  opt_rel Q (@run U1 A r a k1) (@run U2 B r a k2).
Proof.
  induction r as [c|set| |r1 IH1 r2 IH2|r1 IH1|n set|n r1 IH1|i r1 IH1];
    intros a k1 k2 Ha Hk; simpl.
  - destruct Ha as (Hp & Hr & Hc). destruct (rest a) as [|x t]; [constructor|].
    inversion Hr; subst. destruct (x =? c); [|constructor].
    apply Hk. repeat split; auto.
  - destruct Ha as (Hp & Hr & Hc). destruct (rest a) as [|x t]; [constructor|].
    inversion Hr; subst. rewrite (set_has_ascii set H1).
    destruct (@set_has U2 set x); [|constructor].
    apply Hk. repeat split; auto.
  - destruct Ha as (Hp & Hr & Hc).
    rewrite (wordp_ascii _ Hp), (wordp_ascii (hd_error (rest a))).
    + destruct (xorb _ _); [|constructor]. apply Hk. repeat split; auto.
    + destruct Hr; simpl; auto.
  - apply IH1; auto.
  - destruct (IH1 a k1 k2 Ha Hk); [auto|now constructor].
  - destruct Ha as (Hp & Hr & Hc). apply many_ascii; auto.
    intros q t Hq Ht. apply Hk. repeat split; auto.
  - apply times_ascii; auto.
  - apply IH1; auto. intros b Hb. apply Hk. now apply ascii_capture.
Qed.

End RunAscii.

Lemma scan_ascii r : forall s p,
  ascii_text s -> ascii_prev p -> opt_rel same_match (@scan U1 r p s) (@scan U2 r p s).
Proof.
  induction s as [|c t IH]; intros p Hs Hp; simpl.
  - destruct (@run_ascii _ _ same_match r {| prev := p; rest := []; caps := [] |}
                (fun m => Some m) (fun m => Some m)) as [|x y Hxy].
    + repeat split; auto.
    + intros b Hb. constructor. now split.
    + constructor.
    + now constructor.
  - inversion Hs as [|? ? Hc Ht]; subst.
    destruct (@run_ascii _ _ same_match r {| prev := p; rest := c :: t; caps := [] |}
                (fun m => Some m) (fun m => Some m)) as [|x y Hxy].
    + repeat split; auto.
    + intros b Hb. constructor. now split.
    + now apply IH.
    + now constructor.
Qed.

Lemma is_valid_ascii s : ascii_text s -> @is_valid U1 s = @is_valid U2 s.
Proof.
  intros H. unfold is_valid, re_match.
  destruct (strip_ascii H) as [E Hs]. rewrite <- E.
  destruct (@run_ascii _ _ same_match RE_EMAIL
              {| prev := None; rest := @strip U1 s; caps := [] |}
              (fun m => Some m) (fun m => Some m)); auto.
  - repeat split; simpl; auto.
  - intros b Hb. constructor. now split.
Qed.

Lemma Email_init_ascii s : ascii_text s -> @Email_init U1 s = @Email_init U2 s.
Proof.
  intros H. unfold Email_init. destruct (strip_ascii H) as [E Hs].
  now rewrite <- E, (is_valid_ascii Hs).
Qed.

Lemma parse_ru_ascii s : ascii_text s -> @parse_ru U1 s = @parse_ru U2 s.
Proof.
  intros H. unfold parse_ru, re_search.
  destruct (@scan_ascii RE_PHONE s None H I) as [|x y [<- (_ & _ & Hc)]]; [reflexivity|].
  unfold group.
  destruct (find _ (caps x)) as [e|] eqn:E; [|reflexivity].
  apply find_some in E. destruct E as [E _].
  rewrite Forall_forall in Hc. apply Hc in E.
  assert (E' : ascii_text (@sub_empty U2 [NonDigit] (snd e))).
  { unfold sub_empty. clear - E. induction E as [|c t Hc _ IH]; simpl; [constructor|].
    destruct (negb _); [constructor|]; auto. }
  unfold Phone_init.
  now rewrite (sub_empty_ascii [NonDigit] E), (sub_empty_ascii [NonDigit] E').
Qed.

End Ascii.

(** ** [PhonebookConflict.merge] *)

Lemma getattr_setattr_same c k v : getattr (setattr c k v) k = v.
Proof. now destruct k. Qed.

Lemma getattr_setattr_other c k k' v : k <> k' -> getattr (setattr c k v) k' = getattr c k'.
Proof. destruct k, k'; simpl; congruence. Qed.

Lemma update_same h r c : update h r c r = c.
Proof. unfold update. now rewrite Nat.eqb_refl. Qed.

Lemma update_other h r r' c : r' <> r -> update h r c r' = h r'.
Proof. unfold update. intros H. now destruct (Nat.eqb_spec r' r). Qed.

Section MergeFacts.

Context {U : UnicodeDB}.
Variables (ignore : list str) (self : PhonebookConflict).

Lemma merge_step_other h key r : r <> source self -> merge_step ignore self h key r = h r.
Proof.
  intros H. unfold merge_step. destruct (_ || _); [reflexivity|]. now apply update_other.
Qed.

Lemma merge_step_key h key : getattr (merge_step ignore self h key (source self)) key = merged ignore self h key.
Proof.
  unfold merge_step, merged, skipped. destruct (_ || _); [reflexivity|].
  now rewrite update_same, getattr_setattr_same.
Qed.

(** A turn touches one attribute of one object. *)
Lemma merge_step_frame h key key' r :
  key <> key' -> getattr (merge_step ignore self h key r) key' = getattr (h r) key'.
Proof.
  intros H. unfold merge_step. destruct (_ || _); [reflexivity|].
  destruct (Nat.eq_dec r (source self)) as [->|Hr].
  - now rewrite update_same, getattr_setattr_other.
  - now rewrite update_other.
Qed.

Lemma merged_frame h key key' :
  key <> key' ->
  merged ignore self (merge_step ignore self h key) key' = merged ignore self h key'.
Proof.
  intros H. unfold merged, skipped. now rewrite !merge_step_frame.
Qed.

Lemma merge_loop : forall keys h,
  NoDup keys ->
  let h' := fold_left (merge_step ignore self) keys h in
  (forall r, r <> source self -> h' r = h r)
  /\ (forall key, List.In key keys -> getattr (h' (source self)) key = merged ignore self h key)
  /\ (forall key r, ~ List.In key keys -> getattr (h' r) key = getattr (h r) key).
Proof.
  induction keys as [|k keys IH]; intros h Hnd; simpl.
  - repeat split; auto. contradiction.
  - inversion Hnd as [|? ? Hk Hnd']; subst.
    destruct (IH (merge_step ignore self h k) Hnd') as (H1 & H2 & H3).
    repeat split.
    + intros r Hr. now rewrite H1, merge_step_other.
    + intros key [->|Hin].
      * rewrite H3 by assumption. apply merge_step_key.
      * rewrite H2 by assumption. apply merged_frame. intros ->. contradiction.
    + intros key r Hn. rewrite H3 by tauto. apply merge_step_frame. tauto.
Qed.

Lemma merge_keys_all key : List.In key merge_keys.
Proof. destruct key; simpl; tauto. Qed.

Lemma merge_keys_nodup : NoDup merge_keys.
Proof. repeat constructor; simpl; intuition discriminate. Qed.

Lemma existsb_name key : existsb (str_eqb (attr_name key)) ignore = true
                         <-> List.In (attr_name key) ignore.
Proof.
  rewrite existsb_exists. split.
  - intros (x & Hx & E). apply str_eqb_eq in E. now rewrite E.
  - intros H. exists (attr_name key). split; [assumption|apply str_eqb_refl].
Qed.

(** C4. [merge] takes the seven fields in the order of line 228; a field
    of [source] takes the value of [dest] exactly when its name is not
    ignored, the value of [dest] is not missing and the two differ, and
    keeps its value otherwise; no other object changes; [resolved]
    becomes [True] and the call returns [None]. *)
Theorem merge_overwrites (h : heap) :
  let h' := fst (fst (merge ignore self h)) in
  let self' := snd (fst (merge ignore self h)) in
  merge_keys = [a_first_name; a_last_name; a_surname; a_org; a_position; a_phone; a_email]
  /\ h' = fold_left (merge_step ignore self) merge_keys h
  /\ (forall key,
        let new_value := getattr (h (dest self)) key in
        let old_value := getattr (h (source self)) key in
        (~ List.In (attr_name key) ignore -> ~ absent new_value ->
         py_eq new_value old_value = false ->
         getattr (h' (source self)) key = new_value)
        /\ (List.In (attr_name key) ignore \/ absent new_value
            \/ py_eq new_value old_value = true ->
            getattr (h' (source self)) key = old_value))
  /\ (forall r, r <> source self -> h' r = h r)
  /\ resolved self' = true /\ source self' = source self /\ dest self' = dest self
  /\ snd (merge ignore self h) = VNone.
Proof.
  cbv zeta. unfold merge. cbn [fst snd resolved source dest].
  destruct (merge_loop h merge_keys_nodup) as (H1 & H2 & _).
  repeat split; auto.
  - intros Hi Ha He. rewrite (H2 key (merge_keys_all key)). unfold merged, skipped.
    destruct (existsb _ ignore) eqn:E; [apply existsb_name in E; contradiction|].
    unfold absent in Ha. destruct (truthy _); [|congruence]. now rewrite He.
  - intros Hs. rewrite (H2 key (merge_keys_all key)). unfold merged, skipped.
    destruct Hs as [Hi|[Ha|He]].
    + apply existsb_name in Hi. now rewrite Hi.
    + unfold absent in Ha. rewrite Ha. simpl. now rewrite orb_true_r.
    + now rewrite He, orb_true_r.
Qed.

End MergeFacts.

(** ** Running the code on ASCII input *)

Lemma ascii_text_check s : forallb (fun c => c <? 128) s = true -> ascii_text s.
Proof.
  intros H. apply Forall_forall. intros c Hc.
  rewrite forallb_forall in H. now apply N.ltb_lt, H.
Qed.

(** On ASCII text [parse_ru] and [Email] can be run under the smallest
    database. *)
Lemma parse_ru_run (U : UnicodeDB) s :
  forallb (fun c => c <? 128) s = true -> @parse_ru U s = @parse_ru ascii_db s.
Proof. intros H. apply parse_ru_ascii. now apply ascii_text_check. Qed.

Lemma Email_init_run (U : UnicodeDB) s :
  forallb (fun c => c <? 128) s = true -> @Email_init U s = @Email_init ascii_db s.
Proof. intros H. apply Email_init_ascii. now apply ascii_text_check. Qed.

(** ** The national form *)

Section National.

Context {U : UnicodeDB}.

(** C5, as the code has it.  [parse_ru] returns a phone exactly when the
    text holds a leading digit 7 or 8 and, right after it, ten digits
    with their separators; it returns [None] otherwise; and every phone
    it returns has the country code 7. *)
Theorem parse_ru_national_7_or_8 (s : str) :
  ((exists p, parse_ru s = Some p) <-> national_form (py "78") s)
  /\ (~ national_form (py "78") s -> parse_ru s = None)
  /\ (forall p, parse_ru s = Some p -> int_code p = 7%Z).
Proof.
  assert (Hfwd : forall p, parse_ru s = Some p -> national_form (py "78") s /\ int_code p = 7%Z).
  { intros p H. apply parse_ru_inv in H.
    destruct H as (pre & pl & ld & gs & tail & m & -> & _ & Hl & Hn & Hg & _ & ->).
    split; [|reflexivity].
    exists (pre ++ pl), ld, (spell gs), tail. repeat split.
    - now rewrite <- app_assoc.
    - change (py "78") with [55; 56]. simpl. intuition.
    - exists gs. auto. }
  repeat split.
  - intros (p & H). now apply Hfwd in H.
  - apply national_form_parses.
  - intros Hn. destruct (parse_ru s) as [p|] eqn:E; [|reflexivity].
    now destruct (Hfwd p eq_refl).
  - intros p H. now apply Hfwd in H.
Qed.

Lemma text_proper w :
  proper w ->
  parse_ru (text w)
  = Some {| int_code := 7; number := digits_of (groups w); ext_code := None |}.
Proof.
  intros (Hl & Hn & Hg). unfold text. apply parse_ru_written; auto.
  destruct (plus w); auto.
Qed.

(** C7. Two writings of the same ten digits, whatever their separators,
    parse to the same phone, and its number is the ten digits. *)
Theorem parse_ru_same_digits (w1 w2 : writing) :
  proper w1 -> proper w2 -> digits_of (groups w1) = digits_of (groups w2) ->
  exists p q,
    parse_ru (text w1) = Some p /\ parse_ru (text w2) = Some q
    /\ number p = digits_of (groups w1) /\ number q = digits_of (groups w1)
    /\ p = q /\ py_eq (VPhone p) (VPhone q) = true.
Proof.
  intros H1 H2 E. rewrite (text_proper H1), (text_proper H2), <- E.
  eexists. eexists. repeat split. apply py_eq_refl.
Qed.

(** C10. An [Email] hashes and compares like its address, and all keys
    live in one dict: a record whose e-mail address spells the name key
    of an accepted record, with which it shares neither e-mail, phone nor
    name, is reported as its duplicate. *)
Theorem email_key_meets_name_key :
  (forall e : Email,
      py_hash (VEmail e) = py_hash (VStr (address e))
      /\ py_eq (VEmail e) (VStr (address e)) = true
      /\ key_match (VStr (address e)) (VEmail e) = true)
  /\ (let h := store_of [odd_name; petrov] in
      Email_init (py "a@x.com") = Ok {| address := py "a@x.com" |}
      /\ email odd_name = VNone /\ phone odd_name = VNone /\ phone petrov = VNone
      /\ name_key odd_name = Some (py "a@x.com")
      /\ name_key petrov = Some (py "PetrovPetr")
      /\ exists pb,
          add h Phonebook_init 0%nat = Ok (pb, ContactClass)
          /\ add h pb 1%nat
             = Ok ({| _list := [0%nat]; _hash := _hash pb;
                      conflicts := [{| source := 0%nat; dest := 1%nat; resolved := false |}] |},
                   PyBool false)).
Proof.
  split.
  - intros e. unfold key_match. simpl. rewrite str_eqb_refl. auto.
  - cbv zeta. split; [rewrite Email_init_run by reflexivity; reflexivity|].
    repeat split. eexists. split; reflexivity.
Qed.

End National.

(** C5, as the spec has it, fails: a number that starts with 8 is parsed,
    though the text holds no 7 followed by ten digits; this under every
    database. *)
Lemma parse_ru_takes_leading_8 :
  (forall U : UnicodeDB,
      @parse_ru U (py "8 (916) 123-45-60")
      = Some {| int_code := 7; number := py "9161234560"; ext_code := None |})
  /\ (forall U : UnicodeDB, ~ @national_form U (py "7") (py "8 (916) 123-45-60")).
Proof.
  split; intros U.
  - rewrite parse_ru_run by reflexivity. reflexivity.
  - intros (pre & ld & body & post & E & Hl & _).
    change (py "7") with [55] in Hl. destruct Hl as [<-|[]].
    assert (H : List.In 55 (py "8 (916) 123-45-60")).
    { rewrite E. apply in_elt. }
    vm_compute in H. intuition discriminate.
Qed.

(** ** The properties at work on the sample records *)

Lemma parse_ru_same_digits_witness :
  @proper ascii_db w_pretty /\ @proper ascii_db w_plain
  /\ digits_of (groups w_pretty) = digits_of (groups w_plain)
  /\ exists p q,
      @parse_ru ascii_db (py "+7(495) 123-45-67") = Some p
      /\ @parse_ru ascii_db (py "74951234567") = Some q
      /\ number p = py "4951234567" /\ number q = py "4951234567"
      /\ p = q /\ @py_eq ascii_db (VPhone p) (VPhone q) = true.
Proof.
  assert (H1 : @proper ascii_db w_pretty).
  { repeat split; auto; repeat constructor. }
  assert (H2 : @proper ascii_db w_plain).
  { repeat split; auto; repeat constructor. }
  assert (E : digits_of (groups w_pretty) = digits_of (groups w_plain)) by reflexivity.
  split; [exact H1|]. split; [exact H2|]. split; [exact E|].
  exact (@parse_ru_same_digits ascii_db w_pretty w_plain H1 H2 E).
Defined.

Lemma add_channel_duplicate_witness :
  let h := store_of [ivanov; petrov] in
  let pb := {| _list := [0%nat];
               _hash := [(mail_a, 0%nat); (VStr (py "IvanovIvan"), 0%nat)];
               conflicts := [] |} in
  @add ascii_db h Phonebook_init 0%nat = Ok (pb, ContactClass)
  /\ (@dict_get ascii_db (_hash pb) (email (h 1%nat)) = Some 0%nat
      \/ (@dict_get ascii_db (_hash pb) (email (h 1%nat)) = None
          /\ @dict_get ascii_db (_hash pb) (phone (h 1%nat)) = Some 0%nat))
  /\ @add ascii_db h pb 1%nat
     = Ok ({| _list := [0%nat];
              _hash := [(mail_a, 0%nat); (VStr (py "IvanovIvan"), 0%nat)];
              conflicts := [{| source := 0%nat; dest := 1%nat; resolved := false |}] |},
           PyBool false).
Proof.
  cbv zeta. split; [reflexivity|].
  assert (H : @dict_get ascii_db [(mail_a, 0%nat); (VStr (py "IvanovIvan"), 0%nat)]
                (email (store_of [ivanov; petrov] 1%nat)) = Some 0%nat) by reflexivity.
  split; [left; exact H|].
  exact (@add_channel_duplicate ascii_db (store_of [ivanov; petrov])
           {| _list := [0%nat];
              _hash := [(mail_a, 0%nat); (VStr (py "IvanovIvan"), 0%nat)];
              conflicts := [] |} 1%nat 0%nat (or_introl H)).
Defined.

Lemma add_name_duplicate_witness :
  let h := store_of [sidorov VNone; sidorov VNone] in
  let pb := {| _list := [0%nat]; _hash := [(VStr (py "SidorovSidor"), 0%nat)];
               conflicts := [] |} in
  @dict_get ascii_db (_hash pb) (email (h 1%nat)) = None
  /\ @dict_get ascii_db (_hash pb) (phone (h 1%nat)) = None
  /\ last_name (h 1%nat) = VStr (py "Sidorov")
  /\ first_name (h 1%nat) = VStr (py "Sidor")
  /\ @dict_get ascii_db (_hash pb) (VStr (py "Sidorov" ++ py "Sidor")) = Some 0%nat
  /\ @add ascii_db h pb 1%nat
     = Ok ({| _list := [0%nat]; _hash := [(VStr (py "SidorovSidor"), 0%nat)];
              conflicts := [{| source := 0%nat; dest := 1%nat; resolved := false |}] |},
           PyBool false).
Proof.
  cbv zeta.
  split; [reflexivity|]. split; [reflexivity|]. split; [reflexivity|].
  split; [reflexivity|]. split; [reflexivity|].
  apply (@add_name_duplicate ascii_db (store_of [sidorov VNone; sidorov VNone])
           {| _list := [0%nat]; _hash := [(VStr (py "SidorovSidor"), 0%nat)];
              conflicts := [] |}
           1%nat 0%nat (py "Sidorov") (py "Sidor")
           eq_refl eq_refl eq_refl eq_refl eq_refl).
  left. reflexivity.
Defined.

(** Namesakes with different middle names are both accepted. *)
Example add_namesakes :
  let h := store_of [sidorov (VStr (py "Ivanovich")); sidorov (VStr (py "Petrovich"))] in
  forall U : UnicodeDB,
  exists pb pb',
    add h Phonebook_init 0%nat = Ok (pb, ContactClass)
    /\ add h pb 1%nat = Ok (pb', ContactClass)
    /\ _list pb' = [0%nat; 1%nat] /\ conflicts pb' = []
    /\ _hash pb' = [(VStr (py "SidorovSidor"), 1%nat)].
Proof.
  cbv zeta. intros U. eexists. eexists.
  split; [reflexivity|]. split; [reflexivity|]. repeat split.
Qed.

Lemma add_registers_accepted_witness :
  @Reachable ascii_db namesakes book_one
  /\ @add ascii_db namesakes book_one 1%nat = Ok (book_two, ContactClass)
  /\ ContactClass <> PyBool false
  /\ (_list book_two = _list book_one ++ [1%nat]
      /\ (~ absent (email (namesakes 1%nat)) ->
          @dict_get ascii_db (_hash book_two) (email (namesakes 1%nat)) = Some 1%nat)
      /\ (~ absent (phone (namesakes 1%nat)) ->
          @dict_get ascii_db (_hash book_two) (phone (namesakes 1%nat)) = Some 1%nat)
      /\ exists l f, last_name (namesakes 1%nat) = VStr l
                     /\ first_name (namesakes 1%nat) = VStr f
                     /\ @dict_get ascii_db (_hash book_two) (VStr (l ++ f)) = Some 1%nat)
  /\ @dict_get ascii_db (_hash book_one) (VStr (py "KuznetsovKuzma")) = Some 0%nat
  /\ @Reachable ascii_db namesakes book_two
  /\ last_named namesakes (py "KuznetsovKuzma") (_list book_two) = Some 1%nat
  /\ @dict_get ascii_db (_hash book_two) (VStr (py "KuznetsovKuzma")) = Some 1%nat.
Proof.
  assert (H1 : @Reachable ascii_db namesakes book_one).
  { apply (@reach_add ascii_db _ Phonebook_init 0%nat _ ContactClass (reach_init _)).
    reflexivity. }
  assert (Hadd : @add ascii_db namesakes book_one 1%nat = Ok (book_two, ContactClass))
    by reflexivity.
  assert (Hans : ContactClass <> PyBool false) by discriminate.
  assert (H2 : @Reachable ascii_db namesakes book_two).
  { exact (@reach_add ascii_db _ book_one 1%nat _ ContactClass H1 Hadd). }
  assert (Hlast : last_named namesakes (py "KuznetsovKuzma") (_list book_two)
                  = Some 1%nat) by reflexivity.
  split; [exact H1|]. split; [exact Hadd|]. split; [exact Hans|].
  split; [exact (proj2 (@add_registers_accepted ascii_db namesakes book_one H1)
                   1%nat book_two ContactClass Hadd Hans)|].
  split; [reflexivity|]. split; [exact H2|]. split; [exact Hlast|].
  exact (proj1 (@add_registers_accepted ascii_db namesakes book_two H2)
           (py "KuznetsovKuzma") 1%nat Hlast).
Defined.

(** The first record of an empty phone book is accepted, and the answer is
    the class object. *)
Lemma add_accepted_returns_class_witness :
  let h := store_of [sidorov VNone] in
  let pb := {| _list := [0%nat]; _hash := [(VStr (py "SidorovSidor"), 0%nat)];
               conflicts := [] |} in
  @add ascii_db h Phonebook_init 0%nat = Ok (pb, ContactClass)
  /\ ((ContactClass = PyBool false /\ _list pb = _list Phonebook_init
       /\ exists d, conflicts pb
                    = conflicts Phonebook_init
                      ++ [{| source := d; dest := 0%nat; resolved := false |}])
      \/ (ContactClass = ContactClass /\ _list pb = _list Phonebook_init ++ [0%nat]
          /\ conflicts pb = conflicts Phonebook_init)).
Proof.
  cbv zeta. split; [reflexivity|].
  exact (@add_accepted_returns_class ascii_db (store_of [sidorov VNone]) Phonebook_init 0%nat
           {| _list := [0%nat]; _hash := [(VStr (py "SidorovSidor"), 0%nat)];
              conflicts := [] |} ContactClass eq_refl).
Defined.

(** Two rows for one person: the second fills in organization and position
    and leaves phone and e-mail as they were. *)
Example merge_fills_gaps :
  forall U : UnicodeDB,
  let tel := VPhone {| int_code := 7; number := py "9991112233"; ext_code := None |} in
  let first := Contact_init (VStr (py "Ivan")) (VStr (py "Ivanov")) VNone VNone VNone tel mail_a in
  let second := Contact_init (VStr (py "Ivan")) (VStr (py "Ivanov")) VNone
                             (VStr (py "Acme")) (VStr (py "Engineer")) tel VNone in
  let h := store_of [first; second] in
  parse_ru (py "+7 999 111 22 33")
  = Some {| int_code := 7; number := py "9991112233"; ext_code := None |}
  /\ exists pb pb',
      add h Phonebook_init 0%nat = Ok (pb, ContactClass)
      /\ add h pb 1%nat = Ok (pb', PyBool false)
      /\ conflicts pb' = [{| source := 0%nat; dest := 1%nat; resolved := false |}]
      /\ fst (fst (merge [] {| source := 0%nat; dest := 1%nat; resolved := false |} h)) 0%nat
         = Contact_init (VStr (py "Ivan")) (VStr (py "Ivanov")) VNone
                        (VStr (py "Acme")) (VStr (py "Engineer")) tel mail_a.
Proof.
  intros U. cbv zeta. split; [rewrite parse_ru_run by reflexivity; reflexivity|].
  eexists. eexists. split; [reflexivity|].
  split; [reflexivity|]. split; reflexivity.
Qed.

(** * More of [main.py]: proofs *)

(** ** Phones as [parse_ru] and [Phone.__init__] make them *)

Section PhoneShape.

Context {U : UnicodeDB}.

Lemma filter_all (A : Type) (f : A -> bool) (l : list A) : forallb f (filter f l) = true.
Proof.
  induction l as [|x l IH]; simpl; [reflexivity|].
  destruct (f x) eqn:E; simpl; [now rewrite E|assumption].
Qed.

Lemma filter_id (A : Type) (f : A -> bool) (l : list A) : forallb f l = true -> filter f l = l.
Proof.
  induction l as [|x l IH]; simpl; [reflexivity|].
  intros H. apply andb_true_iff in H. destruct H as [Hx Hl]. now rewrite Hx, IH.
Qed.

Lemma digits_of_decimal gs :
  Forall well_written gs -> forallb isdecimal (digits_of gs) = true.
Proof.
  induction 1 as [|g gs [_ Hd] _ IH]; simpl; [reflexivity|]. now rewrite Hd.
Qed.

Lemma parsed_phone_shape (s : str) (p : Phone) :
  parse_ru s = Some p ->
  int_code p = 7%Z
  /\ length (number p) = 10%nat
  /\ forallb isdecimal (number p) = true
  /\ (ext_code p = None
      \/ exists ds, ext_code p = Some ds /\ ds <> [] /\ forallb isdecimal ds = true).
Proof.
  intros H. apply parse_ru_inv in H.
  destruct H as (pre & pl & ld & gs & tail & m & _ & _ & _ & Hn & Hg & Hx & ->). simpl.
  repeat split.
  - unfold digits_of. now rewrite length_map.
  - now apply digits_of_decimal.
  - destruct Hx as [[-> _]|(marks & ds & _ & Hne & Hds & ->)]; [now left|].
    right. exists ds. auto.
Qed.

(** X1. Every phone that [parse_ru] returns has the country code 7 and a
    number of exactly ten decimal digits; its extension is [None] or a
    non-empty string of decimal digits. *)
Theorem parse_ru_shape (s : str) (p : Phone) :
  parse_ru s = Some p ->
  int_code p = 7%Z
  /\ length (number p) = 10%nat
  /\ forallb isdecimal (number p) = true
  /\ (ext_code p = None
      \/ exists ds, ext_code p = Some ds /\ ds <> [] /\ forallb isdecimal ds = true).
Proof. exact (@parsed_phone_shape s p). Qed.

(** X2. [Phone.__init__] keeps the decimal digits of [number], in their
    order, and nothing else; a number that is all digits is kept as it is,
    so building a phone again from its own fields gives the same phone. *)
Theorem Phone_init_keeps_digits (code : Z) (num : str) (ext : option str) :
  let p := Phone_init code num ext in
  number p = filter isdecimal num
  /\ forallb isdecimal (number p) = true
  /\ (forallb isdecimal num = true -> number p = num)
  /\ Phone_init (int_code p) (number p) (ext_code p) = p.
Proof.
  cbv zeta. unfold Phone_init. simpl. rewrite !sub_empty_nondigit. repeat split.
  - apply filter_all.
  - apply filter_id.
  - f_equal. apply filter_id, filter_all.
Qed.

End PhoneShape.

(** ** [==] and [hash] *)

Section Equality.

Context {U : UnicodeDB}.

Lemma str_eqb_sym a b : str_eqb a b = str_eqb b a.
Proof.
  destruct (str_eqb a b) eqn:E, (str_eqb b a) eqn:F; try reflexivity.
  - apply str_eqb_eq in E. subst. now rewrite str_eqb_refl in F.
  - apply str_eqb_eq in F. subst. now rewrite str_eqb_refl in E.
Qed.

(** X3. [==] is symmetric on strings, phones, e-mails and [None], in every
    combination: the reflected call of [__eq__] gives the same answer. *)
Theorem py_eq_sym (a b : value) : py_eq a b = py_eq b a.
Proof.
  destruct a, b; simpl; auto using str_eqb_sym, Phone_same_sym.
Qed.

(** X4. [__hash__] agrees with [__eq__] for an e-mail against anything and
    for a phone against a phone: what compares equal has the same hash.
    It does not for a phone against a string: a phone equals a spelling of
    its number that does not have its hash. *)
Theorem hash_follows_eq :
  (forall (e : Email) (v : value),
      py_eq (VEmail e) v = true -> py_hash v = py_hash (VEmail e))
  /\ (forall p q : Phone,
      py_eq (VPhone p) (VPhone q) = true -> py_hash (VPhone q) = py_hash (VPhone p))
  /\ (exists (p : Phone) (s : str),
      py_eq (VPhone p) (VStr s) = true /\ py_hash (VStr s) <> py_hash (VPhone p)).
Proof.
  repeat split.
  - intros e [|s|p|o]; simpl; try discriminate; intros H; apply str_eqb_eq in H; congruence.
  - intros p q H. simpl in *. apply Phone_same_triple in H. unfold triple in H.
    injection H as H1 H2 H3. unfold Phone_hash_text. now rewrite H1, H2, H3.
  - exists {| int_code := 7; number := py "4951234567"; ext_code := None |}, (py "74951234567").
    split; [|discriminate]. simpl. rewrite parse_ru_run by reflexivity. reflexivity.
Qed.

End Equality.

(** ** [Email.__str__] *)

Section EmailStr.

Context {U : UnicodeDB}.

(** X5. The text of an e-mail that the constructor accepted is accepted
    again and gives the same e-mail, by [Email.parse] and by the
    constructor; and the e-mail equals its text. *)
Theorem Email_str_round_trip (a : str) (e : Email) :
  Email_init a = Ok e ->
  Email_parse (Email_str e) = Ok (Some e)
  /\ Email_init (Email_str e) = Ok e
  /\ py_eq (VEmail e) (VStr (Email_str e)) = true.
Proof.
  unfold Email_parse, Email_init, Email_str. rewrite is_valid_strip.
  destruct (is_valid a) eqn:E; simpl; [|discriminate].
  intros H. injection H as <-. simpl.
  rewrite !is_valid_strip, E, strip_idempotent. simpl.
  repeat split. apply str_eqb_refl.
Qed.

End EmailStr.

(** ** [Phonebook.add]: errors, bookkeeping, invariants *)

Section AddMore.

Context {U : UnicodeDB}.

Lemma add_raises_iff (h : heap) (pb : Phonebook) (c : ref) (e : exn) :
  add h pb c = Raise e
  <-> e = TypeError
      /\ dict_get (_hash pb) (email (h c)) = None
      /\ dict_get (_hash pb) (phone (h c)) = None
      /\ name_key (h c) = None.
Proof.
  unfold add, name_key.
  destruct (dict_get (_hash pb) (email (h c))) as [d|].
  { split; [discriminate|]. intros (_ & H & _). discriminate. }
  destruct (dict_get (_hash pb) (phone (h c))) as [d|].
  { split; [discriminate|]. intros (_ & _ & H & _). discriminate. }
  destruct (last_name (h c)) as [|l| |]; destruct (first_name (h c)) as [|f| |]; simpl;
    try (split; [intros H; injection H as <-; auto|intros (-> & _); reflexivity]).
  destruct (dict_get (_hash pb) (VStr (l ++ f))) as [d|].
  - match goal with |- context [if ?b then _ else _] => destruct b end;
      (split; [discriminate|intros (_ & _ & _ & H); discriminate]).
  - split; [discriminate|intros (_ & _ & _ & H); discriminate].
Qed.

(** X6. [add] raises exactly when neither the e-mail nor the phone is found
    and the two names are not both strings; what it raises is [TypeError],
    from [last_name + first_name]. *)
Theorem add_raises (h : heap) (pb : Phonebook) (c : ref) (e : exn) :
  add h pb c = Raise e
  <-> e = TypeError
      /\ dict_get (_hash pb) (email (h c)) = None
      /\ dict_get (_hash pb) (phone (h c)) = None
      /\ name_key (h c) = None.
Proof. exact (add_raises_iff h pb c e). Qed.

Lemma add_all_reachable h : forall cs pb pb',
  Reachable h pb -> add_all h pb cs = Ok pb' -> Reachable h pb'.
Proof.
  induction cs as [|c cs IH]; intros pb pb' HR; simpl.
  - intros H. now injection H as <-.
  - destruct (add h pb c) as [[pb1 ans]|x] eqn:E; [|discriminate].
    apply IH. eapply reach_add; eauto.
Qed.

(** X7. Calls of [add] in a row lose no record and invent none: the
    accepted records together with the [dest] of the conflicts are the
    records that were added, each as often as it was added; and both lists
    only grow at the end. *)
Theorem add_all_keeps_every_record (h : heap) (cs : list ref) (pb pb' : Phonebook) :
  add_all h pb cs = Ok pb' ->
  Permutation (_list pb' ++ map dest (conflicts pb'))
              (_list pb ++ map dest (conflicts pb) ++ cs)
  /\ (exists l, _list pb' = _list pb ++ l)
  /\ (exists k, conflicts pb' = conflicts pb ++ k).
Proof.
  revert pb. induction cs as [|c cs IH]; intros pb; simpl.
  - intros H. injection H as <-. rewrite app_nil_r. repeat split.
    + apply Permutation_refl.
    + exists []. now rewrite app_nil_r.
    + exists []. now rewrite app_nil_r.
  - destruct (add h pb c) as [[pb1 ans]|x] eqn:E; [|discriminate].
    intros H. apply IH in H. destruct H as (HP & (l & Hl) & (k & Hk)).
    apply add_cases in E.
    destruct E as [(d & -> & _)|(ln & fn & _ & _ & _ & _ & -> & _)]; simpl in *.
    + repeat split.
      * eapply Permutation_trans; [exact HP|].
        rewrite map_app. simpl. rewrite <- !app_assoc. reflexivity.
      * now exists l.
      * exists ({| source := d; dest := c; resolved := false |} :: k).
        now rewrite Hk, <- app_assoc.
    + repeat split.
      * eapply Permutation_trans; [exact HP|].
        rewrite <- !app_assoc. apply Permutation_app_head. simpl.
        apply Permutation_middle.
      * exists (c :: l). now rewrite Hl, <- app_assoc.
      * now exists k.
Qed.

Lemma dict_get_in d k r : dict_get d k = Some r -> exists k0, List.In (k0, r) d.
Proof.
  induction d as [|[k0 v0] d IH]; simpl; [discriminate|].
  destruct (key_match k0 k).
  - intros H. injection H as ->. eauto.
  - intros H. destruct (IH H) as [k1 H1]. eauto.
Qed.

Lemma dict_set_in d k v k0 r :
  List.In (k0, r) (dict_set d k v) -> r = v \/ List.In (k0, r) d.
Proof.
  induction d as [|[k1 v1] d IH]; simpl.
  - intros [H|[]]. injection H as _ <-. now left.
  - destruct (key_match k1 k); simpl.
    + intros [H|H]; [injection H as _ <-; now left|auto].
    + intros [H|H]; [auto|]. destruct (IH H); auto.
Qed.

Lemma values_are_accepted (h : heap) (pb : Phonebook) :
  Reachable h pb ->
  (forall k r, List.In (k, r) (_hash pb) -> List.In r (_list pb))
  /\ (forall cf, List.In cf (conflicts pb) ->
                 List.In (source cf) (_list pb) /\ resolved cf = false).
Proof.
  induction 1 as [|pb c pb' ans _ IH Hadd]; [split; [intros k r []|intros cf []]|].
  destruct IH as [IH1 IH2].
  assert (Hdup : forall k d, dict_get (_hash pb) k = Some d -> List.In d (_list pb)).
  { intros k d Hd. apply dict_get_in in Hd. destruct Hd as [k0 Hd]. eauto. }
  unfold add in Hadd.
  assert (Hconf : forall d, List.In d (_list pb) ->
            (forall k r, List.In (k, r) (_hash (conflict_with pb d c)) ->
                         List.In r (_list (conflict_with pb d c)))
            /\ (forall cf, List.In cf (conflicts (conflict_with pb d c)) ->
                  List.In (source cf) (_list (conflict_with pb d c)) /\ resolved cf = false)).
  { intros d Hd. split; [exact IH1|]. simpl. intros cf Hcf.
    apply in_app_or in Hcf. destruct Hcf as [Hcf|[<-|[]]]; auto. }
  assert (Hacc : forall name,
            (forall k r, List.In (k, r) (_hash (accept h pb c name)) ->
                         List.In r (_list (accept h pb c name)))
            /\ (forall cf, List.In cf (conflicts (accept h pb c name)) ->
                  List.In (source cf) (_list (accept h pb c name)) /\ resolved cf = false)).
  { intros name. unfold accept. simpl. split.
    - intros k r Hin. apply in_or_app.
      apply dict_set_in in Hin. destruct Hin as [->|Hin]; [right; now left|].
      destruct (truthy (phone (h c))).
      + apply dict_set_in in Hin. destruct Hin as [->|Hin]; [right; now left|].
        destruct (truthy (email (h c))).
        * apply dict_set_in in Hin. destruct Hin as [->|Hin]; [right; now left|]. eauto.
        * eauto.
      + destruct (truthy (email (h c))).
        * apply dict_set_in in Hin. destruct Hin as [->|Hin]; [right; now left|]. eauto.
        * eauto.
    - intros cf Hcf. destruct (IH2 cf Hcf). split; [apply in_or_app|]; auto. }
  destruct (dict_get (_hash pb) (email (h c))) as [d|] eqn:He.
  { injection Hadd as <- _. apply Hconf. eauto. }
  destruct (dict_get (_hash pb) (phone (h c))) as [d|] eqn:Hp.
  { injection Hadd as <- _. apply Hconf. eauto. }
  destruct (py_add (last_name (h c)) (first_name (h c))) as [name|]; [|discriminate].
  destruct (dict_get (_hash pb) name) as [d|] eqn:Hn.
  - match type of Hadd with (if ?b then _ else _) = _ => destruct b end;
      injection Hadd as <- _; [apply Hconf; eauto|apply Hacc].
  - injection Hadd as <- _. apply Hacc.
Qed.

(** X8. In every phone book built by calls of [add], each value of the
    lookup structure and the [source] of each conflict is an accepted
    record, and no conflict is resolved yet. *)
Theorem reachable_points_to_accepted (h : heap) (pb : Phonebook) :
  Reachable h pb ->
  (forall k r, List.In (k, r) (_hash pb) -> List.In r (_list pb))
  /\ (forall cf, List.In cf (conflicts pb) ->
                 List.In (source cf) (_list pb) /\ resolved cf = false).
Proof. exact (values_are_accepted (h:=h) (pb:=pb)). Qed.

Lemma dict_get_set_some d k k' v :
  dict_get d k <> None -> dict_get (dict_set d k' v) k <> None.
Proof.
  induction d as [|[k0 v0] d IH]; simpl; [congruence|].
  destruct (key_match k0 k') eqn:E'; simpl; destruct (key_match k0 k); auto; discriminate.
Qed.

(** The keys of the accepted records stay answered. *)
Lemma accepted_keys_answered h pb :
  Reachable h pb ->
  forall a, List.In a (_list pb) ->
    (truthy (email (h a)) = true -> dict_get (_hash pb) (email (h a)) <> None)
    /\ (truthy (phone (h a)) = true -> dict_get (_hash pb) (phone (h a)) <> None).
Proof.
  induction 1 as [|pb c pb' ans _ IH Hadd]; [intros ? []|].
  apply add_cases in Hadd.
  destruct Hadd as [(d & -> & _)|(l & f & Hl & Hf & _ & _ & -> & _)]; [exact IH|].
  intros a Ha.
  destruct (accept_registers h pb c Hl Hf) as (E & _ & He & Hp & _).
  rewrite E in Ha. apply in_app_or in Ha. destruct Ha as [Ha|[<-|[]]].
  - destruct (IH a Ha) as [H1 H2]. unfold accept. simpl.
    split; intros Ht; apply dict_get_set_some;
      (destruct (truthy (phone (h c))); [apply dict_get_set_some|]);
      (destruct (truthy (email (h c))); [apply dict_get_set_some|]); auto.
  - unfold absent in He, Hp. split; intros Ht.
    + rewrite He; [discriminate|congruence].
    + rewrite Hp; [discriminate|congruence].
Qed.

Lemma channels_distinct (h : heap) (pb : Phonebook) :
  Reachable h pb ->
  forall (i j : nat) (a b : ref),
    (i < j)%nat -> nth_error (_list pb) i = Some a -> nth_error (_list pb) j = Some b ->
    (forall e, email (h a) = VEmail e -> email (h b) <> VEmail e)
    /\ (forall p, phone (h a) = VPhone p -> phone (h b) <> VPhone p).
Proof.
  induction 1 as [|pb c pb' ans HR IH Hadd]; intros i j a b Hij Ha Hb.
  { destruct i; discriminate. }
  pose proof (accepted_keys_answered HR) as Hkeys.
  apply add_cases in Hadd.
  destruct Hadd as [(d & -> & _)|(l & f & Hl & Hf & He & Hp & -> & _)]; [eauto|].
  change (_list (accept h pb c (VStr (l ++ f)))) with (_list pb ++ [c]) in Ha, Hb.
  destruct (Nat.lt_ge_cases j (length (_list pb))) as [Hj|Hj].
  - rewrite nth_error_app1 in Ha, Hb by lia. eauto.
  - assert (Hjl : nth_error (_list pb ++ [c]) j <> None) by congruence.
    apply nth_error_Some in Hjl. rewrite length_app in Hjl. simpl in Hjl.
    assert (j = length (_list pb)) by lia. subst j.
    rewrite nth_error_app2, Nat.sub_diag in Hb by lia. injection Hb as <-.
    rewrite nth_error_app1 in Ha by lia. apply nth_error_In in Ha.
    destruct (Hkeys a Ha) as [H1 H2]. split.
    + intros e Ea Eb. rewrite Ea in H1. rewrite Eb in He. now apply H1.
    + intros p Ea Eb. rewrite Ea in H2. rewrite Eb in Hp. now apply H2.
Qed.

(** X9. No two accepted records carry the same e-mail or the same phone:
    of two records of the canonical sequence, the later one has neither the
    [Email] nor the [Phone] of the earlier one. *)
Theorem accepted_channels_distinct (h : heap) (pb : Phonebook) :
  Reachable h pb ->
  forall (i j : nat) (a b : ref),
    (i < j)%nat -> nth_error (_list pb) i = Some a -> nth_error (_list pb) j = Some b ->
    (forall e, email (h a) = VEmail e -> email (h b) <> VEmail e)
    /\ (forall p, phone (h a) = VPhone p -> phone (h b) <> VPhone p).
Proof. exact (channels_distinct (h:=h) (pb:=pb)). Qed.

End AddMore.

(** ** [PhonebookConflict.merge], again *)

Lemma contact_ext (c c' : Contact) : (forall k, getattr c k = getattr c' k) -> c = c'.
Proof.
  intros H. destruct c, c'.
  pose proof (H a_first_name). pose proof (H a_last_name). pose proof (H a_surname).
  pose proof (H a_org). pose proof (H a_position). pose proof (H a_phone).
  pose proof (H a_email). simpl in *. congruence.
Qed.

Section MergeMore.

Context {U : UnicodeDB}.
Variables (ignore : list str) (self : PhonebookConflict).

(** The store after [merge]. *)
Lemma merge_store h :
  let h' := fst (fst (merge ignore self h)) in
  (forall r, r <> source self -> h' r = h r)
  /\ (forall key, getattr (h' (source self)) key = merged ignore self h key).
Proof.
  cbv zeta. unfold merge. cbn [fst].
  destruct (merge_loop ignore self h merge_keys_nodup) as (H1 & H2 & _).
  split; [exact H1|]. intros key. apply H2, merge_keys_all.
Qed.

(** [dest] reads the same after [merge], also when it is [source]. *)
Lemma merge_dest h key :
  getattr (fst (fst (merge ignore self h)) (dest self)) key = getattr (h (dest self)) key.
Proof.
  destruct (merge_store h) as [H1 H2].
  destruct (Nat.eq_dec (dest self) (source self)) as [E|E].
  - rewrite E, H2. unfold merged, skipped. rewrite E.
    now rewrite py_eq_refl, orb_true_r.
  - now rewrite H1.
Qed.

Lemma merged_settled h key :
  skipped ignore self (fst (fst (merge ignore self h))) key = true.
Proof.
  destruct (merge_store h) as [_ H2].
  unfold skipped. rewrite merge_dest, H2. unfold merged, skipped.
  destruct (existsb _ ignore); [reflexivity|].
  destruct (truthy (getattr (h (dest self)) key)); [|reflexivity]. simpl.
  destruct (py_eq (getattr (h (dest self)) key) (getattr (h (source self)) key)) eqn:E.
  - exact E.
  - apply py_eq_refl.
Qed.

(** X10. [merge] is idempotent: a second [merge] of the same conflict,
    with the same fields ignored, changes no object. *)
Theorem merge_twice (h : heap) (r : ref) :
  let h1 := fst (fst (merge ignore self h)) in
  fst (fst (merge ignore self h1)) r = h1 r.
Proof.
  cbv zeta. set (h1 := fst (fst (merge ignore self h))).
  destruct (merge_store h1) as [H1 H2].
  destruct (Nat.eq_dec r (source self)) as [->|E]; [|now apply H1].
  apply contact_ext. intros key. rewrite H2. unfold merged.
  unfold h1. now rewrite merged_settled.
Qed.

(** X11. After [merge], [source] agrees with [dest] on every field that is
    not ignored and that [dest] has a value for. *)
Theorem merge_agrees (h : heap) (key : attr) :
  let h' := fst (fst (merge ignore self h)) in
  ~ List.In (attr_name key) ignore ->
  ~ absent (getattr (h (dest self)) key) ->
  py_eq (getattr (h' (dest self)) key) (getattr (h' (source self)) key) = true.
Proof.
  cbv zeta. intros Hi Ha. pose proof (merged_settled h key) as Hs.
  unfold skipped in Hs. rewrite merge_dest in *.
  destruct (existsb _ ignore) eqn:E; [apply existsb_name in E; contradiction|].
  unfold absent in Ha. destruct (truthy _); [|congruence]. exact Hs.
Qed.

End MergeMore.

(** ** Valid e-mail addresses *)

Section EmailValid.

Context {U : UnicodeDB}.

Lemma after_last u c p : after (u ++ [c]) p = Some c.
Proof. unfold after. now rewrite fold_left_app. Qed.

Lemma after_nonempty u p q : u <> [] -> after u p = after u q.
Proof.
  intros H. destruct (exists_last H) as (v & c & ->). now rewrite !after_last.
Qed.

Lemma nonempty_length (u : str) : (1 <= length u)%nat <-> u <> [].
Proof. destruct u; simpl; split; intros; try congruence; lia. Qed.

Lemma hd_error_app (u v : str) : u <> [] -> hd_error (u ++ v) = hd_error u.
Proof. now destruct u. Qed.

(** X12. [Email.is_valid] accepts exactly the texts that, once stripped,
    start with an address of the shape of [RE_EMAIL]; what follows the
    address is free, as long as a word ends or starts there. *)
Theorem is_valid_shape (a : str) : is_valid a = true <-> email_shape (strip a).
Proof.
  unfold is_valid, re_match.
  set (s := strip a). set (a0 := {| prev := None; rest := s; caps := [] |}).
  split.
  - destruct (run RE_EMAIL a0 (fun m => Some m)) as [m|] eqn:E; [intros _|discriminate].
    apply run_sound in E. destruct E as (b & HS & _). revert HS.
    unfold RE_EMAIL. cbn [Sem]. fold EMAIL_LOCAL EMAIL_DOMAIN EMAIL_TLD.
    intros (a1 & [-> Hw0] & a2 & (u & Hu & Hul & Mu) & a3 & Mat & a4 & (v & Hv & Hvl & Mv)
            & a5 & Mdot & a6 & (w & Hw & Hwl & Mw) & -> & Hw1).
    destruct Mu as (Ru & Pu & _). destruct Mat as (Rat & Pat & _).
    destruct Mv as (Rv & Pv & _). destruct Mdot as (Rd & Pd & _).
    destruct Mw as (Rw & Pw & _). simpl in Ru, Pu, Rat, Rd, Hw0.
    apply nonempty_length in Hu. apply nonempty_length in Hv.
    exists u, v, w, (rest a6). repeat split; auto.
    + rewrite Ru, Rat, Rv, Rd, Rw. reflexivity.
    + rewrite Ru, hd_error_app in Hw0 by assumption. exact Hw0.
    + rewrite Pw in Hw1. rewrite (after_nonempty (prev a5) None) in Hw1; [exact Hw1|].
      destruct w; [simpl in Hw; lia|discriminate].
  - intros (u & v & w & tail & Es & Hu & Hul & Hv & Hvl & Hw & Hwl & Hw0 & Hw1).
    set (a2 := {| prev := after u None; rest := ch "@" :: v ++ ch "." :: w ++ tail; caps := [] |}).
    set (a3 := {| prev := Some (ch "@"); rest := v ++ ch "." :: w ++ tail; caps := [] |}).
    set (a4 := {| prev := after v (Some (ch "@")); rest := ch "." :: w ++ tail; caps := [] |}).
    set (a5 := {| prev := Some (ch "."); rest := w ++ tail; caps := [] |}).
    set (a6 := {| prev := after w (Some (ch ".")); rest := tail; caps := [] |}).
    assert (HS : Sem RE_EMAIL a0 a6).
    { unfold RE_EMAIL. cbn [Sem]. fold EMAIL_LOCAL EMAIL_DOMAIN EMAIL_TLD.
      exists a0. split.
      { split; [reflexivity|]. simpl. rewrite Es, hd_error_app by assumption. exact Hw0. }
      exists a2. split.
      { exists u. split; [now apply nonempty_length|]. split; [assumption|].
        repeat split. exact Es. }
      exists a3. split; [repeat split|].
      exists a4. split.
      { exists v. split; [now apply nonempty_length|]. split; [assumption|]. repeat split. }
      exists a5. split; [repeat split|].
      exists a6. split.
      { exists w. split; [assumption|]. split; [assumption|]. repeat split. }
      split; [reflexivity|]. simpl.
      rewrite (after_nonempty (Some (ch ".")) None); [exact Hw1|].
      destruct w; [simpl in Hw; lia|discriminate]. }
    destruct (run_complete RE_EMAIL _ _ (fun m => Some m) HS eq_refl) as (y & ->).
    reflexivity.
Qed.

End EmailValid.

(** ** [Phone.__str__] *)

Section PhoneStr.

Context {U : UnicodeDB}.

(** [\d{n}] takes the next [n] digits and has no other way to match. *)
Lemma times_digits (A : Type) : forall (u t : str) a (k : cursor -> option A),
  forallb isdecimal u = true -> rest a = u ++ t ->
  times (length u) (run (OneOf [Digit])) a k
  = k {| prev := after u (prev a); rest := t; caps := caps a |}.
Proof.
  induction u as [|c u IH]; intros t a k Hu Hr; simpl in *.
  - f_equal. rewrite <- Hr. symmetry. apply cursor_eta.
  - apply andb_true_iff in Hu. destruct Hu as [Hc Hu].
    rewrite Hr. simpl. rewrite Hc. simpl.
    now rewrite (IH t {| prev := Some c; rest := u ++ t; caps := caps a |} k Hu eq_refl).
Qed.

Lemma group_digits (A : Type) i n (u t : str) a (k : cursor -> option A) :
  length u = n -> forallb isdecimal u = true -> rest a = u ++ t ->
  run (Group i (Times n (OneOf [Digit]))) a k
  = k {| prev := after u (prev a); rest := t; caps := (i, u) :: caps a |}.
Proof.
  intros <- Hu Hr.
  change (run (Group i (Times (length u) (OneOf [Digit]))) a k)
    with (times (length u) (run (OneOf [Digit])) a (fun c => k (capture i a c))).
  rewrite (@times_digits _ u t _ _ Hu Hr).
  f_equal. unfold capture. simpl. now rewrite Hr, firstn_consumed.
Qed.

(** The one match of [PHONE_FORMAT] on ten digits. *)
Lemma format_match (A : Type) (a b c d t : str) cur (k : cursor -> option A) :
  length a = 3%nat -> length b = 3%nat -> length c = 2%nat -> length d = 2%nat ->
  forallb isdecimal (a ++ b ++ c ++ d) = true ->
  rest cur = (a ++ b ++ c ++ d) ++ t ->
  run PHONE_FORMAT cur k
  = k {| prev := after (a ++ b ++ c ++ d) (prev cur); rest := t;
         caps := (4%nat, d) :: (3%nat, c) :: (2%nat, b) :: (1%nat, a) :: caps cur |}.
Proof.
  intros La Lb Lc Ld Hall Hr. rewrite !forallb_app, !andb_true_iff in Hall.
  destruct Hall as (Ha & Hb & Hc & Hd).
  unfold PHONE_FORMAT.
  change (run (?r1 ;; ?r2) ?x ?kk) with (run r1 x (fun y => run r2 y kk)).
  rewrite (@group_digits _ 1%nat 3%nat a (b ++ c ++ d ++ t) _ _ La Ha)
    by (rewrite Hr, <- !app_assoc; reflexivity).
  change (run (?r1 ;; ?r2) ?x ?kk) with (run r1 x (fun y => run r2 y kk)).
  rewrite (@group_digits _ 2%nat 3%nat b (c ++ d ++ t) _ _ Lb Hb) by reflexivity.
  change (run (?r1 ;; ?r2) ?x ?kk) with (run r1 x (fun y => run r2 y kk)).
  rewrite (@group_digits _ 3%nat 2%nat c (d ++ t) _ _ Lc Hc) by reflexivity.
  rewrite (@group_digits _ 4%nat 2%nat d t _ _ Ld Hd) by reflexivity.
  cbn [prev rest caps]. now rewrite !after_app.
Qed.

Lemma iter_oneof set : forall n a b,
  iter n (Sem (OneOf set)) a b -> exists u, length u = n /\ rest a = u ++ rest b.
Proof.
  induction n as [|n IH]; intros a b H; simpl in H.
  - subst. now exists [].
  - destruct H as (mid & (c & _ & (Hr & _)) & H). apply IH in H.
    destruct H as (u & Hu & Hm). exists (c :: u). simpl. split; [congruence|].
    now rewrite Hr, Hm.
Qed.

(** [PHONE_FORMAT] matches no text of fewer than ten characters. *)
Lemma format_short (A : Type) cur (k : cursor -> option A) :
  (length (rest cur) < 10)%nat -> run PHONE_FORMAT cur k = None.
Proof.
  intros Hl. destruct (run PHONE_FORMAT cur k) as [x|] eqn:E; [exfalso|reflexivity].
  apply run_sound in E. destruct E as (m & HS & _). revert HS.
  unfold PHONE_FORMAT. cbn [Sem].
  intros (m1 & (n1 & H1 & ->) & m2 & (n2 & H2 & ->) & m3 & (n3 & H3 & ->) & n4 & H4 & ->).
  apply iter_oneof in H1, H2, H3, H4.
  destruct H1 as (u1 & L1 & R1), H2 as (u2 & L2 & R2), H3 as (u3 & L3 & R3),
    H4 as (u4 & L4 & R4). simpl in R2, R3, R4.
  rewrite R1, R2, R3, R4, !length_app in Hl. lia.
Qed.

Lemma sub_go_no_match r tpl : forall s p,
  (forall p' s', (length s' <= length s)%nat ->
     run r {| prev := p'; rest := s'; caps := [] |} (fun m => Some m) = None) ->
  sub_go r tpl 0 p s = s.
Proof.
  induction s as [|c t IH]; intros p H; simpl.
  - now rewrite H.
  - rewrite H by (simpl; lia). f_equal. apply IH.
    intros p' s' Hs. apply H. simpl. lia.
Qed.

Lemma sub_go_pass r tpl : forall (s : str) p,
  sub_go r tpl (length s) p s = sub_go r tpl 0 (after s p) [].
Proof.
  induction s as [|c t IH]; intros p; [reflexivity|].
  cbn [length sub_go]. apply IH.
Qed.

(** One match that takes the whole text. *)
Lemma sub_go_whole r tpl p (s : str) m :
  s <> [] ->
  run r {| prev := p; rest := s; caps := [] |} (fun x => Some x) = Some m ->
  rest m = [] ->
  run r {| prev := after s p; rest := []; caps := [] |} (fun x => Some x) = None ->
  sub_go r tpl 0 p s = expand tpl m.
Proof.
  intros Hs Hm Hr Hend. destruct s as [|c t]; [congruence|].
  cbn [sub_go]. rewrite Hm. unfold taken. rewrite Hr. cbn [length Nat.sub].
  rewrite sub_go_pass. cbn [sub_go].
  change (after (c :: t) p) with (after t (Some c)) in Hend. rewrite Hend.
  apply app_nil_r.
Qed.

Lemma Phone_str_ten (p : Phone) (a b c d : str) :
  number p = a ++ b ++ c ++ d ->
  length a = 3%nat -> length b = 3%nat -> length c = 2%nat -> length d = 2%nat ->
  forallb isdecimal (number p) = true ->
  Phone_str p
  = py "+" ++ str_of_int (int_code p)
    ++ py "(" ++ a ++ py ")" ++ b ++ py "-" ++ c ++ py "-" ++ d
    ++ ext_text (ext_code p).
Proof.
  intros Hn La Lb Lc Ld Hall. unfold Phone_str, re_sub. rewrite Hn in *.
  fold (ext_text (ext_code p)). do 2 f_equal.
  rewrite !app_assoc. f_equal. rewrite <- !app_assoc.
  rewrite (@sub_go_whole PHONE_FORMAT PHONE_TEMPLATE None (a ++ b ++ c ++ d)
             {| prev := after (a ++ b ++ c ++ d) None; rest := [];
                caps := [(4%nat, d); (3%nat, c); (2%nat, b); (1%nat, a)] |}).
  - unfold expand, PHONE_TEMPLATE, group.
    cbn [flat_map caps find fst snd Nat.eqb]. now rewrite app_nil_r.
  - destruct a; [discriminate|discriminate].
  - apply (@format_match _ a b c d []); auto. simpl. now rewrite app_nil_r.
  - reflexivity.
  - apply format_short. simpl. lia.
Qed.

(** X13. A phone with a number of ten digits is displayed as
    [+<code>(ddd)ddd-dd-dd], followed by [ доб.<ext>] when there is a
    non-empty extension. *)
Theorem Phone_str_format (p : Phone) (a b c d : str) :
  number p = a ++ b ++ c ++ d ->
  length a = 3%nat -> length b = 3%nat -> length c = 2%nat -> length d = 2%nat ->
  forallb isdecimal (number p) = true ->
  Phone_str p
  = py "+" ++ str_of_int (int_code p)
    ++ py "(" ++ a ++ py ")" ++ b ++ py "-" ++ c ++ py "-" ++ d
    ++ ext_text (ext_code p).
Proof. exact (@Phone_str_ten p a b c d). Qed.

(** X14. A number of fewer than ten digits is displayed as it is: the
    format pattern finds nothing to replace. *)
Theorem Phone_str_short (p : Phone) :
  (length (number p) < 10)%nat ->
  Phone_str p = py "+" ++ str_of_int (int_code p) ++ number p ++ ext_text (ext_code p).
Proof.
  intros Hl. unfold Phone_str, re_sub. fold (ext_text (ext_code p)).
  rewrite sub_go_no_match; [reflexivity|].
  intros p' s' Hs. apply format_short. simpl. lia.
Qed.

End PhoneStr.

(** ** From the display form back to the phone *)

Section RoundTrip.

Context {U : UnicodeDB}.

(** A greedy run takes all it can when what follows accepts that. *)
Lemma many_greedy (A : Type) set : forall (u : str) n p (v : str)
    (k : option char -> str -> option A) x,
  forallb (set_has set) u = true -> (n <= length u)%nat ->
  match v with [] => True | c :: _ => set_has set c = false end ->
  k (after u p) v = Some x ->
  many set n p (u ++ v) k = Some x.
Proof.
  induction u as [|c u IH]; intros n p v k x Hu Hn Hv Hk; simpl in *.
  - assert (n = O) by lia. subst n. destruct v as [|d v]; [assumption|].
    simpl. now rewrite Hv.
  - apply andb_true_iff in Hu. destruct Hu as [Hc Hu]. rewrite Hc.
    rewrite (IH (pred n) (Some c) v k x Hu ltac:(lia) Hv Hk). reflexivity.
Qed.

Lemma mark_not_decimal c :
  letters_are_not_digits -> set_has EXT_MARK c = true -> isdecimal c = false.
Proof.
  unfold letters_are_not_digits.
  change (py "добавчный") with [1076; 1086; 1073; 1072; 1074; 1095; 1085; 1099; 1081].
  change EXT_MARK with [One 40; One 1076; One 1086; One 1073; One 1072; One 1074; One 1095;
                        One 1085; One 1099; One 1081; One 46; Space].
  cbn [forallb]. rewrite !andb_true_iff, !negb_true_iff.
  intros (L1 & L2 & L3 & L4 & L5 & L6 & L7 & L8 & L9 & _) H.
  unfold set_has in H. apply existsb_exists in H. destruct H as (i & Hi & H).
  cbn [List.In] in Hi.
  repeat (destruct Hi as [<-|Hi]);
    try (cbn [item_has] in H; apply N.eqb_eq in H; subst c; try assumption;
         rewrite isdecimal_ascii by lia; reflexivity).
  - cbn [item_has] in H. destruct (isdecimal c) eqn:E; [|reflexivity].
    now rewrite (isdecimal_not_space _ E) in H.
  - destruct Hi.
Qed.

(** The ten turns of [([\s()-]*\d)] on a written number: the cursor they
    end at, and that the matcher goes there first. *)
Lemma digits_forward (A : Type) : forall gs a (t : str) (k : cursor -> option A),
  Forall well_written gs -> rest a = spell gs ++ t ->
  exists c l,
    rest c = t /\ caps c = l ++ caps a /\ only_group 3 l
    /\ forall x, k c = Some x -> times (length gs) (run ONE_DIGIT) a k = Some x.
Proof.
  induction gs as [|g gs IH]; intros a t k Hall Hr.
  - exists a, []. repeat split; auto. constructor.
  - inversion Hall as [|? ? [Hs Hd] Hgs]; subst.
    unfold spell in Hr. simpl in Hr. unfold written in Hr. rewrite <- !app_assoc in Hr.
    simpl in Hr.
    set (mid := {| prev := Some (snd g); rest := spell gs ++ t; caps := caps a |}).
    destruct (IH (capture 3 a mid) t k Hgs eq_refl) as (c & l & Rc & Cc & Hl & Hrun).
    exists c, (l ++ [(3%nat, written g)]). repeat split.
    + exact Rc.
    + rewrite Cc. rewrite (capture_caps 3 a mid (written g)), <- app_assoc; [reflexivity|].
      unfold written. now rewrite Hr, <- app_assoc.
    + apply Forall_app. split; [assumption|]. now repeat constructor.
    + intros x Hx. cbn [length times]. unfold ONE_DIGIT at 1.
      change (run (Group 3 (AtLeast 0 SEPARATOR;; OneOf [Digit])) a ?kk)
        with (many SEPARATOR 0 (prev a) (rest a)
                (fun p s => run (OneOf [Digit]) {| prev := p; rest := s; caps := caps a |}
                              (fun c' => kk (capture 3 a c')))).
      rewrite Hr. apply many_greedy; auto.
      * lia.
      * destruct (set_has SEPARATOR (snd g)) eqn:E; [|reflexivity].
        apply separator_not_decimal in E. congruence.
      * cbn [run rest]. simpl set_has. rewrite Hd. simpl. fold mid. now apply Hrun.
Qed.

(** An optional first character. *)
Lemma run_opt_chr (A : Type) c r p (s : str) g (k : cursor -> option A) :
  run (Maybe (Chr c);; r) {| prev := p; rest := s; caps := g |} k
  = match s with
    | x :: t =>
      if x =? c then
        match run r {| prev := Some x; rest := t; caps := g |} k with
        | Some a => Some a
        | None => run r {| prev := p; rest := s; caps := g |} k
        end
      else run r {| prev := p; rest := s; caps := g |} k
    | [] => run r {| prev := p; rest := []; caps := g |} k
    end.
Proof.
  change (run (Maybe (Chr c);; r) ?x k)
    with (match run (Chr c) x (fun y => run r y k) with
          | Some a => Some a
          | None => run r x k
          end).
  destruct s as [|x t]; cbn [run rest caps]; [reflexivity|].
  destruct (x =? c); reflexivity.
Qed.

(** A written number and, after any marker characters, the digits of an
    extension parse to the number and the extension. *)
Lemma parse_ru_with_ext (w : writing) (marks ds : str) :
  letters_are_not_digits -> proper w ->
  forallb (set_has EXT_MARK) marks = true -> ds <> [] -> forallb isdecimal ds = true ->
  parse_ru (text w ++ marks ++ ds)
  = Some {| int_code := 7; number := digits_of (groups w); ext_code := Some ds |}.
Proof.
  intros HL (Hlead & Hn & Hg) Hm Hne Hds.
  change (ch "7") with 55 in Hlead. change (ch "8") with 56 in Hlead.
  set (tail := marks ++ ds).
  set (p0 := if plus w then Some 43 else None).
  set (a1 := {| prev := p0; rest := lead w :: spell (groups w) ++ tail;
                caps := @nil (nat * str) |}).
  set (a2 := capture 1 a1 {| prev := Some (lead w); rest := spell (groups w) ++ tail;
                             caps := [] |}).
  destruct (@digits_forward cursor (groups w) a2 tail
              (fun c => run (Maybe (Group 4 (AtLeast 0 EXT_MARK;; Group 5 (AtLeast 1 [Digit]))))
                            (capture 2 a2 c) (fun m => Some m)) Hg eq_refl)
    as (c3 & l & R3 & C3 & Hl & Hrun).
  set (a3 := capture 2 a2 c3).
  set (cmid := {| prev := after marks (prev a3); rest := ds; caps := caps a3 |}).
  set (cend := {| prev := after ds (prev cmid); rest := []; caps := caps a3 |}).
  set (m := capture 4 a3 (capture 5 cmid cend)).
  (* the extension *)
  assert (Hext : run (Maybe (Group 4 (AtLeast 0 EXT_MARK;; Group 5 (AtLeast 1 [Digit]))))
                     a3 (fun m => Some m) = Some m).
  { assert (R3' : rest a3 = marks ++ ds) by exact R3.
    assert (HX : run (Group 4 (AtLeast 0 EXT_MARK;; Group 5 (AtLeast 1 [Digit])))
                     a3 (fun m => Some m) = Some m).
    { change (run (Group 4 (AtLeast 0 EXT_MARK;; Group 5 (AtLeast 1 [Digit]))) a3
                  (fun m => Some m))
        with (many EXT_MARK 0 (prev a3) (rest a3)
                (fun p s => many [Digit] 1 p s
                   (fun p' s' => Some (capture 4 a3
                      (capture 5 {| prev := p; rest := s; caps := caps a3 |}
                               {| prev := p'; rest := s'; caps := caps a3 |}))))).
      rewrite R3'. apply many_greedy; auto.
      - lia.
      - destruct ds as [|d ds']; [exact I|]. simpl in Hds.
        apply andb_true_iff in Hds. destruct Hds as [Hd _].
        destruct (set_has EXT_MARK d) eqn:E; [|reflexivity].
        apply (mark_not_decimal _ HL) in E. congruence.
      - rewrite <- (app_nil_r ds) at 1. apply many_greedy; auto.
        + rewrite <- Hds. clear. induction ds as [|c t IH]; [reflexivity|].
          simpl. now rewrite orb_false_r, IH.
        + destruct ds; [congruence|simpl; lia]. }
    change (run (Maybe ?r) a3 ?kk)
      with (match run r a3 kk with Some x => Some x | None => kk a3 end).
    now rewrite HX. }
  (* the whole pattern, from the first character *)
  assert (Hrest : run (Group 1 (OneOf (ones "78"));;
                       Group 2 (Times 10 ONE_DIGIT);;
                       Maybe (Group 4 (AtLeast 0 EXT_MARK;; Group 5 (AtLeast 1 [Digit]))))%re
                      a1 (fun m => Some m) = Some m).
  { change (run (?r1 ;; ?r2) a1 ?kk) with (run r1 a1 (fun y => run r2 y kk)).
    cbn [run]. cbn [rest a1].
    assert (E : set_has (ones "78") (lead w) = true) by now apply lead_spec.
    rewrite E. fold a2. rewrite <- Hn. now apply Hrun. }
  assert (Hscan : re_search RE_PHONE (text w ++ tail) = Some m).
  { unfold re_search. apply scan_here. unfold RE_PHONE. fold ONE_DIGIT.
    rewrite run_opt_chr.
    assert (E : text w ++ tail
                = (if plus w then [43] else []) ++ lead w :: spell (groups w) ++ tail).
    { unfold text. now rewrite <- app_assoc. }
    rewrite E. unfold a1, p0 in Hrest. destruct (plus w); cbn [app].
    - change (ch "+") with 43. rewrite N.eqb_refl.
      match goal with
      | |- match ?X with _ => _ end = _ => replace X with (Some m) by (symmetry; exact Hrest)
      end. reflexivity.
    - replace (lead w =? ch "+") with false; [exact Hrest|].
      symmetry. apply N.eqb_neq. change (ch "+") with 43. destruct Hlead as [->| ->]; lia. }
  unfold parse_ru. fold tail. rewrite Hscan.
  assert (C1 : caps a3 = (2%nat, spell (groups w)) :: l ++ caps a2).
  { unfold a3. rewrite (capture_caps 2 a2 c3 (spell (groups w))); [now rewrite C3|].
    exact (f_equal (app (spell (groups w))) (eq_sym R3)). }
  assert (Cm : caps m = (4%nat, marks ++ ds) :: (5%nat, ds) :: caps a3).
  { unfold m. rewrite (capture_caps 4 a3 (capture 5 cmid cend) (marks ++ ds)).
    - rewrite (capture_caps 5 cmid cend ds); [reflexivity|]. simpl. now rewrite app_nil_r.
    - cbn [rest capture]. rewrite app_nil_r. exact R3. }
  unfold group. rewrite Cm, C1. cbn [find fst snd Nat.eqb].
  unfold Phone_init. rewrite !sub_empty_nondigit, (filter_spell Hg).
  rewrite filter_id by now apply digits_of_decimal. reflexivity.
Qed.

Lemma display_separators :
  Forall (fun s : str => forallb (set_has SEPARATOR) s = true)
         [py "("; []; []; py ")"; []; []; py "-"; []; py "-"; []].
Proof.
  change SEPARATOR with [Space; One 40; One 41; One 45].
  repeat constructor; simpl; now rewrite ?orb_true_r.
Qed.

Lemma display_proper (ds : str) :
  length ds = 10%nat -> forallb isdecimal ds = true ->
  proper (w_display ds) /\ digits_of (groups (w_display ds)) = ds.
Proof.
  intros Hl Hd.
  do 10 (destruct ds as [|? ds]; [discriminate|]). destruct ds; [|discriminate].
  simpl in Hd. rewrite !andb_true_iff in Hd.
  destruct Hd as (H1 & H2 & H3 & H4 & H5 & H6 & H7 & H8 & H9 & H10 & _).
  pose proof display_separators as S.
  repeat match goal with H : Forall _ (_ :: _) |- _ => inversion H; clear H; subst end.
  split; [|reflexivity].
  split; [now left|]. split; [reflexivity|].
  unfold w_display. cbn [groups combine].
  repeat constructor; cbn [fst snd]; assumption.
Qed.

(** X15. Display and parsing are inverse on the phones that [parse_ru]
    returns: parsing what [Phone.__str__] prints gives the phone back,
    with its extension. *)
Theorem parse_ru_round_trip (s : str) (p : Phone) :
  letters_are_not_digits -> parse_ru s = Some p -> parse_ru (Phone_str p) = Some p.
Proof.
  intros HL H. destruct (parsed_phone_shape _ H) as (Hc & Hl & Hd & Hx).
  destruct p as [code num ext]. simpl in Hc, Hl, Hd, Hx. subst code.
  destruct (display_proper num Hl Hd) as [Hw Hdig].
  assert (Hstr : Phone_str {| int_code := 7; number := num; ext_code := ext |}
                 = text (w_display num) ++ ext_text ext).
  { rewrite (@Phone_str_ten _ _ (firstn 3 num) (firstn 3 (skipn 3 num))
               (firstn 2 (skipn 6 num)) (skipn 8 num)); simpl number; simpl int_code;
      simpl ext_code; try assumption.
    - do 10 (destruct num as [|? num]; [discriminate|]). destruct num; [|discriminate].
      reflexivity.
    - do 10 (destruct num as [|? num]; [discriminate|]). reflexivity.
    - do 10 (destruct num as [|? num]; [discriminate|]). reflexivity.
    - do 10 (destruct num as [|? num]; [discriminate|]). reflexivity.
    - do 10 (destruct num as [|? num]; [discriminate|]). reflexivity.
    - do 10 (destruct num as [|? num]; [discriminate|]). destruct num; [|discriminate].
      reflexivity. }
  rewrite Hstr. destruct Hx as [->|(ds & -> & Hne & Hds)].
  - cbn [ext_text]. rewrite app_nil_r, (text_proper Hw), Hdig. reflexivity.
  - cbn [ext_text]. destruct (str_eqb ds []) eqn:E; [apply str_eqb_eq in E; contradiction|].
    assert (Hm : forallb (set_has EXT_MARK) [32; 1076; 1086; 1073; 46] = true).
    { change EXT_MARK with [One 40; One 1076; One 1086; One 1073; One 1072; One 1074;
                            One 1095; One 1085; One 1099; One 1081; One 46; Space].
      simpl. rewrite isspace_ascii by lia. reflexivity. }
    pose proof (@parse_ru_with_ext (w_display num) [32; 1076; 1086; 1073; 46] ds
                  HL Hw Hm Hne Hds) as P.
    rewrite Hdig in P. exact P.
Qed.

End RoundTrip.

(** ** The loader *)

Section LoaderFacts.

Context {U : UnicodeDB}.

Lemma split_nonempty sep s : split sep s <> [].
Proof.
  destruct s as [|c t]; simpl; [discriminate|].
  destruct (c =? sep); [discriminate|]. destruct (split sep t); discriminate.
Qed.

Lemma split_no_sep sep : forall s, Forall (fun x => ~ List.In sep x) (split sep s).
Proof.
  induction s as [|c t IH]; simpl.
  - repeat constructor. intros [].
  - destruct (N.eqb_spec c sep) as [->|Hc].
    + constructor; [intros []|assumption].
    + destruct (split sep t) as [|x l]; [repeat constructor; intros [H|[]]; congruence|].
      inversion IH; subst. constructor; [|assumption].
      intros [H|H]; [congruence|contradiction].
Qed.

Lemma split_second sep : forall s, nth_error (split sep s) 1 = None <-> ~ List.In sep s.
Proof.
  induction s as [|c t IH]; simpl.
  - split; [intros _ []|reflexivity].
  - destruct (N.eqb_spec c sep) as [->|Hc].
    + simpl. pose proof (split_nonempty sep t). destruct (split sep t); [contradiction|].
      simpl. split; [discriminate|]. intros G. exfalso. apply G. now left.
    + pose proof (split_nonempty sep t). destruct (split sep t) as [|x l]; [contradiction|].
      simpl in *. rewrite IH. split; intros G; [intros [E|E]; [congruence|contradiction]|].
      intros E. apply G. now right.
Qed.

Lemma name_part_word full_name i :
  Forall (fun x => ~ List.In (ch " ") x) full_name -> word_or_none (name_part full_name i).
Proof.
  intros H. unfold name_part, word_or_none.
  destruct (nth_error _ i) as [x|] eqn:E; [|left; reflexivity].
  right. exists x. split; [reflexivity|]. apply nth_error_In in E.
  rewrite Forall_forall in H. now apply H.
Qed.

Lemma text_or_none_clean x : clean_or_none (text_or_none x).
Proof.
  unfold text_or_none, clean_or_none.
  destruct (length (strip x)) eqn:E; simpl; [left; reflexivity|].
  right. exists (strip x). split; [reflexivity|]. split.
  - intros H. now rewrite H in E.
  - apply strip_idempotent.
Qed.

Lemma Email_parse_cases a :
  Email_parse a = Ok None
  \/ (Email_parse a = Ok (Some {| address := strip a |}) /\ is_valid a = true).
Proof.
  unfold Email_parse, Email_init. rewrite is_valid_strip.
  destruct (is_valid a); simpl; auto.
Qed.

(** The [Contact(...)] expression fails on a short row only. *)
Lemma contact_of_row_cases row :
  (contact_of_row row = inl IndexError /\ (length row < 7)%nat)
  \/ (exists c, contact_of_row row = inr c /\ (7 <= length row)%nat /\ well_formed c
                /\ name_key c
                   = match nth_error (split (ch " ") (row_names row)) 0,
                           nth_error (split (ch " ") (row_names row)) 1 with
                     | Some l, Some f => Some (l ++ f)
                     | _, _ => None
                     end).
Proof.
  unfold contact_of_row. fold (row_names row).
  destruct (nth_error row 3) as [r3|] eqn:E3.
  2:{ left. split; [reflexivity|]. apply nth_error_None in E3. lia. }
  destruct (nth_error row 4) as [r4|] eqn:E4.
  2:{ left. split; [reflexivity|]. apply nth_error_None in E4. lia. }
  destruct (nth_error row 5) as [r5|] eqn:E5.
  2:{ left. split; [reflexivity|]. apply nth_error_None in E5. lia. }
  destruct (nth_error row 6) as [r6|] eqn:E6.
  2:{ left. split; [reflexivity|]. apply nth_error_None in E6. lia. }
  right.
  assert (H7 : (7 <= length row)%nat).
  { assert (nth_error row 6 <> None) by congruence. apply nth_error_Some in H. lia. }
  pose proof (split_no_sep (ch " ") (row_names row)) as Hw.
  pose proof (split_nonempty (ch " ") (row_names row)) as Hne.
  assert (Hphone : forall o : option Phone, parse_ru r5 = o ->
            match o with Some p => VPhone p | None => VNone end = VNone
            \/ exists p, match o with Some p => VPhone p | None => VNone end = VPhone p
                         /\ int_code p = 7%Z /\ length (number p) = 10%nat
                         /\ forallb isdecimal (number p) = true).
  { intros [p|] Hp; [right|now left]. exists p.
    destruct (parsed_phone_shape _ Hp) as (H1 & H2 & H3 & _). auto. }
  destruct (Email_parse_cases r6) as [->|[-> Hv]].
  - eexists. split; [reflexivity|]. split; [assumption|]. split.
    + unfold well_formed, Contact_init. cbn [last_name first_name surname org position phone email].
      repeat split; auto using name_part_word, text_or_none_clean.
      unfold name_part. destruct (split (ch " ") (row_names row)) as [|x l]; [congruence|].
      inversion Hw; subst. exists x. auto.
    + unfold name_key, Contact_init, name_part. cbn [last_name first_name].
      destruct (nth_error _ 0); [|reflexivity]. destruct (nth_error _ 1); reflexivity.
  - eexists. split; [reflexivity|]. split; [assumption|]. split.
    + unfold well_formed, Contact_init. cbn [last_name first_name surname org position phone email].
      repeat split; auto using name_part_word, text_or_none_clean.
      * unfold name_part. destruct (split (ch " ") (row_names row)) as [|x l]; [congruence|].
        inversion Hw; subst. exists x. auto.
      * right. eexists. split; [reflexivity|]. simpl.
        split; [now rewrite is_valid_strip|apply strip_idempotent].
    + unfold name_key, Contact_init, name_part. cbn [last_name first_name].
      destruct (nth_error _ 0); [|reflexivity]. destruct (nth_error _ 1); reflexivity.
Qed.

End LoaderFacts.

(** ** Loading and the phone book *)

Section LoadBook.

Context {U : UnicodeDB}.

(** [add] reads the record it is given and the records that the lookup
    structure points to, and no other object. *)
Lemma add_ext h h' pb c :
  h c = h' c -> (forall k r, List.In (k, r) (_hash pb) -> h r = h' r) ->
  add h pb c = add h' pb c.
Proof.
  intros Hc Hv. unfold add, accept. rewrite <- Hc.
  destruct (match dict_get (_hash pb) (email (h c)) with
            | Some d => Some d
            | None => dict_get (_hash pb) (phone (h c))
            end); [reflexivity|].
  destruct (py_add (last_name (h c)) (first_name (h c))) as [name|]; [|reflexivity].
  destruct (dict_get (_hash pb) name) as [d|] eqn:E; [|reflexivity].
  apply dict_get_in in E. destruct E as [k E]. now rewrite <- (Hv k d E).
Qed.

Lemma add_grows h pb c pb' ans :
  add h pb c = Ok (pb', ans) ->
  (forall r, List.In r (_list pb) -> List.In r (_list pb'))
  /\ (forall cf, List.In cf (conflicts pb) -> List.In cf (conflicts pb'))
  /\ (forall r, List.In r (_list pb') -> List.In r (_list pb) \/ r = c)
  /\ (forall cf, List.In cf (conflicts pb') -> List.In cf (conflicts pb) \/ dest cf = c)
  /\ (List.In c (_list pb') \/ exists cf, List.In cf (conflicts pb') /\ dest cf = c).
Proof.
  intros H. apply add_cases in H.
  destruct H as [(d & -> & _)|(l & f & _ & _ & _ & _ & -> & _)]; simpl.
  - repeat split; auto.
    + intros cf Hcf. apply in_or_app. auto.
    + intros cf Hcf. apply in_app_or in Hcf. destruct Hcf as [Hcf|[<-|[]]]; auto.
    + right. eexists. split; [apply in_or_app; right; now left|reflexivity].
  - repeat split; auto.
    + intros r Hr. apply in_or_app. auto.
    + intros r Hr. apply in_app_or in Hr. destruct Hr as [Hr|[<-|[]]]; auto.
    + left. apply in_or_app. right. now left.
Qed.

(** A new object does not disturb the phone book built so far. *)
Lemma reachable_update h pb n c :
  Reachable h pb -> below n pb -> Reachable (update h n c) pb.
Proof.
  induction 1 as [|pb0 c0 pb ans HR IH Hadd]; intros [B1 B2]; [constructor|].
  destruct (add_grows _ _ _ Hadd) as (G1 & G2 & _ & _ & G5).
  assert (B0 : below n pb0) by (split; auto).
  assert (Hc0 : (c0 < n)%nat).
  { destruct G5 as [G|(cf & G & <-)]; auto. }
  apply reach_add with (pb := pb0) (c := c0) (ans := ans); [now apply IH|].
  rewrite <- Hadd. symmetry. apply add_ext.
  - rewrite update_other; [reflexivity|lia].
  - intros k r Hin. apply (values_are_accepted HR) in Hin.
    destruct B0 as [B0 _]. apply B0 in Hin. rewrite update_other; [reflexivity|lia].
Qed.

Lemma load_rows_reachable : forall rows st st',
  load_rows rows st = inr st' ->
  Reachable (store st) (book st) -> below (fresh st) (book st) ->
  Reachable (store st') (book st') /\ below (fresh st') (book st').
Proof.
  induction rows as [|row rows IH]; intros st st' H HR HB; simpl in H.
  - injection H as <-. auto.
  - destruct (contact_of_row row) as [e|c]; [discriminate|]. cbn [store fresh book] in H.
    destruct (add (update (store st) (fresh st) c) (book st) (fresh st))
      as [[pb ans]|e] eqn:Hadd; [|discriminate].
    apply IH in H; [exact H| |]; cbn [store fresh book].
    + eapply reach_add; [|exact Hadd]. now apply reachable_update.
    + destruct (add_grows _ _ _ Hadd) as (_ & _ & G3 & G4 & _). destruct HB as [B1 B2].
      split.
      * intros r Hr. destruct (G3 r Hr) as [G| ->]; [apply B1 in G|]; lia.
      * intros cf Hcf. destruct (G4 cf Hcf) as [G| ->]; [apply B2 in G|]; lia.
Qed.

(** X16. Loading rows into an empty phone book gives a phone book in which
    no two accepted records carry the same e-mail or the same phone: of
    two records of the canonical sequence, the later one has neither the
    [Email] nor the [Phone] of the earlier one. *)
Theorem load_no_shared_channel (rows : list (list str)) (h : heap) (n : ref) (st : loader) :
  load_rows rows {| store := h; fresh := n; book := Phonebook_init |} = inr st ->
  forall (i j : nat) (a b : ref),
    (i < j)%nat ->
    nth_error (_list (book st)) i = Some a -> nth_error (_list (book st)) j = Some b ->
    (forall e, email (store st a) = VEmail e -> email (store st b) <> VEmail e)
    /\ (forall p, phone (store st a) = VPhone p -> phone (store st b) <> VPhone p).
Proof.
  intros H. apply load_rows_reachable in H.
  - destruct H as [HR _]. exact (channels_distinct HR).
  - constructor.
  - split; intros ? [].
Qed.

(** X17. Loading loses no row and invents none: when it returns, the
    accepted records together with the [dest] of the conflicts are the
    records that were there before and one new record for each row, and
    the objects that existed before are as they were. *)
Theorem load_keeps_every_row : forall (rows : list (list str)) (st st' : loader),
  load_rows rows st = inr st' ->
  fresh st' = (fresh st + length rows)%nat
  /\ Permutation (_list (book st') ++ map dest (conflicts (book st')))
                 (_list (book st) ++ map dest (conflicts (book st))
                  ++ seq (fresh st) (length rows))
  /\ (forall r, (r < fresh st)%nat -> store st' r = store st r).
Proof.
  induction rows as [|row rows IH]; intros st st' H; simpl in H.
  - injection H as <-. simpl. rewrite !app_nil_r, Nat.add_0_r. auto.
  - destruct (contact_of_row row) as [e|c]; [discriminate|]. cbn [store fresh book] in H.
    destruct (add (update (store st) (fresh st) c) (book st) (fresh st))
      as [[pb ans]|e] eqn:Hadd; [|discriminate].
    apply IH in H. cbn [store fresh book] in H. destruct H as (Hf & HP & Hs).
    split; [simpl; lia|]. split.
    + eapply Permutation_trans; [exact HP|]. cbn [length seq].
      apply add_cases in Hadd.
      destruct Hadd as [(d & -> & _)|(l & f & _ & _ & _ & _ & -> & _)]; simpl.
      * rewrite map_app. simpl. rewrite <- !app_assoc. reflexivity.
      * rewrite <- !app_assoc. apply Permutation_app_head. simpl.
        apply Permutation_middle.
    + intros r Hr. rewrite Hs by lia. apply update_other. lia.
Qed.

(** X18. Loading succeeds on rows of seven columns or more whose names,
    joined and stripped, are two words or more: no [IndexError], and no
    [TypeError] from [add]. *)
Theorem load_succeeds : forall (rows : list (list str)) (st : loader),
  (forall row, List.In row rows ->
     (7 <= length row)%nat /\ List.In (ch " ") (row_names row)) ->
  exists st', load_rows rows st = inr st'.
Proof.
  induction rows as [|row rows IH]; intros st Hrows; simpl; [eauto|].
  destruct (Hrows row (or_introl eq_refl)) as [H7 Hsp].
  destruct (contact_of_row_cases row) as [[_ Hs]|(c & -> & _ & _ & Hname)]; [lia|].
  cbn [store fresh book].
  destruct (add (update (store st) (fresh st) c) (book st) (fresh st))
    as [[pb ans]|e] eqn:Hadd.
  - apply IH. intros r Hr. apply Hrows. now right.
  - exfalso. apply add_raises_iff in Hadd. destruct Hadd as (_ & _ & _ & Hn).
    rewrite update_same, Hname in Hn.
    pose proof (split_nonempty (ch " ") (row_names row)) as Hne.
    pose proof (split_second (ch " ") (row_names row)) as H2.
    revert Hn Hne H2.
    destruct (split (ch " ") (row_names row)) as [|x [|y l]]; cbn [nth_error].
    + congruence.
    + intros _ _ H2. now apply H2.
    + discriminate.
Qed.

(** X19. A row of fewer than seven columns ends the loading with
    [IndexError]; a row whose names are one word, and whose phone and
    e-mail are not known yet, ends it with the [TypeError] of [add].  In
    both cases the phone book is as the earlier rows left it. *)
Theorem load_fails (row : list str) (rows : list (list str)) (st : loader) :
  ((length row < 7)%nat -> load_rows (row :: rows) st = inl (IndexError, st))
  /\ (forall c,
        contact_of_row row = inr c -> ~ List.In (ch " ") (row_names row) ->
        dict_get (_hash (book st)) (email c) = None ->
        dict_get (_hash (book st)) (phone c) = None ->
        load_rows (row :: rows) st
        = inl (Raised TypeError,
               {| store := update (store st) (fresh st) c; fresh := S (fresh st);
                  book := book st |})).
Proof.
  split.
  - intros Hs. cbn [load_rows].
    destruct (contact_of_row_cases row) as [[E _]|(c & _ & H7 & _)]; [now rewrite E|lia].
  - intros c Hc Hsp He Hp. cbn [load_rows]. rewrite Hc. cbn [store fresh book].
    destruct (contact_of_row_cases row) as [[E _]|(c' & E & _ & _ & Hname)]; [congruence|].
    assert (c' = c) by congruence. subst c'.
    assert (Hn : name_key c = None).
    { rewrite Hname. apply split_second in Hsp. revert Hsp.
      destruct (split (ch " ") (row_names row)) as [|x [|y l]]; cbn [nth_error];
        [reflexivity|reflexivity|discriminate]. }
    assert (Hadd : add (update (store st) (fresh st) c) (book st) (fresh st)
                   = Raise TypeError).
    { apply add_raises_iff. rewrite update_same. auto. }
    now rewrite Hadd.
Qed.

End LoadBook.

(** ** [re.sub] that deletes *)

Section SubDelete.

Context {U : UnicodeDB}.

(** Replacing every character of a set by nothing is deleting those
    characters: the [re.sub(r'\D', '', x)] of lines 61 and 89. *)
Lemma re_sub_delete set : forall (s : str) p,
  sub_go (OneOf set) [] 0 p s = sub_empty set s.
Proof.
  induction s as [|c t IH]; intros p; [reflexivity|].
  cbn [sub_go run rest caps]. unfold sub_empty in *. cbn [filter].
  destruct (set_has set c); cbn [negb].
  - unfold taken. cbn [rest length].
    replace (S (length t) - length t)%nat with 1%nat by lia.
    cbn [expand flat_map app]. apply IH.
  - f_equal. apply IH.
Qed.

(** X20. A written number and then, after any run of the marker
    characters [(добавчный. ] and white space, a run of digits up to the end
    of the text: [parse_ru] returns the number with those digits as the
    extension. *)
Theorem parse_ru_extension (w : writing) (marks ds : str) :
  letters_are_not_digits -> proper w ->
  forallb (set_has EXT_MARK) marks = true -> ds <> [] -> forallb isdecimal ds = true ->
  parse_ru (text w ++ marks ++ ds)
  = Some {| int_code := 7; number := digits_of (groups w); ext_code := Some ds |}.
Proof. exact (@parse_ru_with_ext _ w marks ds). Qed.

(** X21. Every record that the loader builds from a row is well formed:
    the last name is a word, first and middle names are words or [None],
    organization and position are stripped non-empty texts or [None], the
    phone is [None] or has the code 7 and ten digits, the e-mail is [None]
    or a valid stripped address. *)
Theorem loaded_contact_well_formed (row : list str) (c : Contact) :
  contact_of_row row = inr c -> well_formed c.
Proof.
  intros H. destruct (contact_of_row_cases row) as [[E _]|(c' & E & _ & Hw & _)]; congruence.
Qed.

End SubDelete.

(** ** The properties at work on the samples *)

Lemma parse_ru_shape_witness :
  @parse_ru ascii_db (py "8 495 913-04-78 (доб. 0792)") = Some phone_ext
  /\ (int_code phone_ext = 7%Z
      /\ length (number phone_ext) = 10%nat
      /\ forallb (@isdecimal ascii_db) (number phone_ext) = true
      /\ (ext_code phone_ext = None
          \/ exists ds, ext_code phone_ext = Some ds /\ ds <> []
                        /\ forallb (@isdecimal ascii_db) ds = true)).
Proof.
  split; [reflexivity|].
  exact (@parse_ru_shape ascii_db (py "8 495 913-04-78 (доб. 0792)") phone_ext eq_refl).
Defined.

Lemma Email_str_round_trip_witness :
  @Email_init ascii_db (py " a@x.com ") = Ok {| address := py "a@x.com" |}
  /\ @Email_parse ascii_db (py "a@x.com") = Ok (Some {| address := py "a@x.com" |}).
Proof.
  split; [reflexivity|].
  exact (proj1 (@Email_str_round_trip ascii_db (py " a@x.com ") {| address := py "a@x.com" |}
                  eq_refl)).
Defined.

Lemma add_all_keeps_every_record_witness :
  let h := store_of [ivanov; petrov; sidorov VNone] in
  @add_all ascii_db h Phonebook_init [0; 1; 2]%nat = Ok book_three
  /\ Permutation (_list book_three ++ map dest (conflicts book_three))
                 (_list Phonebook_init ++ map dest (conflicts Phonebook_init) ++ [0; 1; 2]%nat).
Proof.
  cbv zeta. split; [reflexivity|].
  exact (proj1 (@add_all_keeps_every_record ascii_db (store_of [ivanov; petrov; sidorov VNone])
                  [0; 1; 2]%nat Phonebook_init book_three eq_refl)).
Defined.

Lemma book_three_reachable :
  @Reachable ascii_db (store_of [ivanov; petrov; sidorov VNone]) book_three.
Proof.
  apply (@add_all_reachable ascii_db _ [0; 1; 2]%nat Phonebook_init).
  - constructor.
  - reflexivity.
Defined.

Lemma reachable_points_to_accepted_witness :
  @Reachable ascii_db (store_of [ivanov; petrov; sidorov VNone]) book_three
  /\ (forall k r, List.In (k, r) (_hash book_three) -> List.In r (_list book_three)).
Proof.
  split; [exact book_three_reachable|].
  exact (proj1 (@reachable_points_to_accepted ascii_db _ _ book_three_reachable)).
Defined.

Lemma book_two_reachable : @Reachable ascii_db namesakes book_two.
Proof.
  apply (@add_all_reachable ascii_db _ [0; 1]%nat Phonebook_init).
  - constructor.
  - reflexivity.
Defined.

Lemma accepted_channels_distinct_witness :
  @Reachable ascii_db namesakes book_two
  /\ (0 < 1)%nat
  /\ nth_error (_list book_two) 0 = Some 0%nat
  /\ nth_error (_list book_two) 1 = Some 1%nat
  /\ email (namesakes 0%nat) = mail_a /\ email (namesakes 1%nat) = mail_b
  /\ phone (namesakes 0%nat) = tel_a /\ phone (namesakes 1%nat) = tel_b
  /\ ((forall e, email (namesakes 0%nat) = VEmail e -> email (namesakes 1%nat) <> VEmail e)
      /\ (forall p, phone (namesakes 0%nat) = VPhone p -> phone (namesakes 1%nat) <> VPhone p)).
Proof.
  split; [exact book_two_reachable|].
  split; [lia|]. split; [reflexivity|]. split; [reflexivity|].
  split; [reflexivity|]. split; [reflexivity|]. split; [reflexivity|]. split; [reflexivity|].
  exact (@accepted_channels_distinct ascii_db namesakes book_two book_two_reachable
           0%nat 1%nat 0%nat 1%nat ltac:(lia) eq_refl eq_refl).
Defined.

Lemma merge_agrees_witness :
  let self := {| source := 0%nat; dest := 1%nat; resolved := false |} in
  let h := store_of [sidorov VNone; sidorov (VStr (py "Petrovich"))] in
  ~ List.In (attr_name a_surname) []
  /\ ~ absent (getattr (h (dest self)) a_surname)
  /\ @py_eq ascii_db
       (getattr (fst (fst (@merge ascii_db [] self h)) (dest self)) a_surname)
       (getattr (fst (fst (@merge ascii_db [] self h)) (source self)) a_surname) = true.
Proof.
  cbv zeta.
  assert (H1 : ~ List.In (attr_name a_surname) []) by (intros []).
  assert (H2 : ~ absent
                   (getattr (store_of [sidorov VNone; sidorov (VStr (py "Petrovich"))] 1%nat)
                            a_surname)) by discriminate.
  split; [exact H1|]. split; [exact H2|].
  exact (@merge_agrees ascii_db [] {| source := 0%nat; dest := 1%nat; resolved := false |}
           (store_of [sidorov VNone; sidorov (VStr (py "Petrovich"))]) a_surname H1 H2).
Defined.

Lemma Phone_str_format_witness :
  number phone_ext = py "495" ++ py "913" ++ py "04" ++ py "78"
  /\ @Phone_str ascii_db phone_ext = py "+7(495)913-04-78 доб.0792".
Proof.
  split; [reflexivity|].
  exact (@Phone_str_format ascii_db phone_ext (py "495") (py "913") (py "04") (py "78")
           eq_refl eq_refl eq_refl eq_refl eq_refl eq_refl).
Defined.

Lemma Phone_str_short_witness :
  let p := {| int_code := 7; number := py "12345"; ext_code := None |} in
  (length (number p) < 10)%nat /\ @Phone_str ascii_db p = py "+712345".
Proof.
  cbv zeta. assert (H : (length (py "12345") < 10)%nat) by (simpl; lia).
  split; [exact H|].
  exact (@Phone_str_short ascii_db {| int_code := 7; number := py "12345"; ext_code := None |} H).
Defined.

Lemma parse_ru_round_trip_witness :
  @letters_are_not_digits ascii_db
  /\ @parse_ru ascii_db (py "8 495 913-04-78 (доб. 0792)") = Some phone_ext
  /\ @parse_ru ascii_db (@Phone_str ascii_db phone_ext) = Some phone_ext.
Proof.
  split; [reflexivity|]. split; [reflexivity|].
  exact (@parse_ru_round_trip ascii_db (py "8 495 913-04-78 (доб. 0792)") phone_ext
           eq_refl eq_refl).
Defined.

Lemma parse_ru_extension_witness :
  @letters_are_not_digits ascii_db /\ @proper ascii_db w_plain
  /\ forallb (@set_has ascii_db EXT_MARK) (py " доб.") = true
  /\ py "12" <> [] /\ forallb (@isdecimal ascii_db) (py "12") = true
  /\ @parse_ru ascii_db (py "74951234567 доб.12")
     = Some {| int_code := 7; number := py "4951234567"; ext_code := Some (py "12") |}.
Proof.
  assert (H2 : @proper ascii_db w_plain).
  { repeat split; auto; repeat constructor. }
  assert (H4 : py "12" <> []) by discriminate.
  split; [reflexivity|]. split; [exact H2|]. split; [reflexivity|]. split; [exact H4|].
  split; [reflexivity|].
  exact (@parse_ru_extension ascii_db w_plain (py " доб.") (py "12")
           eq_refl H2 eq_refl H4 eq_refl).
Defined.

Lemma loaded_contact_well_formed_witness :
  exists c, @contact_of_row ascii_db row_second = inr c /\ @well_formed ascii_db c.
Proof.
  eexists. split; [reflexivity|].
  exact (@loaded_contact_well_formed ascii_db row_second _ eq_refl).
Defined.

Lemma load_keeps_every_row_witness :
  exists st,
    @load_rows ascii_db [row_first; row_second] loader_init = inr st
    /\ fresh st = 2%nat
    /\ _list (book st) = [0%nat]
    /\ map dest (conflicts (book st)) = [1%nat].
Proof.
  eexists. split; [reflexivity|].
  split; [|split; reflexivity].
  exact (proj1 (@load_keeps_every_row ascii_db [row_first; row_second] loader_init _ eq_refl)).
Defined.

Lemma load_no_shared_channel_witness :
  @load_rows ascii_db [row_first; row_other; row_second] loader_init = inr loaded_three
  /\ (0 < 1)%nat
  /\ nth_error (_list (book loaded_three)) 0 = Some 0%nat
  /\ nth_error (_list (book loaded_three)) 1 = Some 1%nat
  /\ email (store loaded_three 0%nat) = VEmail {| address := py "ivan@x.com" |}
  /\ email (store loaded_three 1%nat) = VEmail {| address := py "petr@x.com" |}
  /\ phone (store loaded_three 0%nat)
     = VPhone {| int_code := 7; number := py "9991112233"; ext_code := None |}
  /\ phone (store loaded_three 1%nat) = tel_b
  /\ ((forall e, email (store loaded_three 0%nat) = VEmail e ->
                 email (store loaded_three 1%nat) <> VEmail e)
      /\ (forall p, phone (store loaded_three 0%nat) = VPhone p ->
                    phone (store loaded_three 1%nat) <> VPhone p)).
Proof.
  assert (Hload : @load_rows ascii_db [row_first; row_other; row_second] loader_init
                  = inr loaded_three) by (vm_compute; reflexivity).
  split; [exact Hload|]. split; [lia|].
  split; [reflexivity|]. split; [reflexivity|].
  split; [reflexivity|]. split; [reflexivity|]. split; [reflexivity|]. split; [reflexivity|].
  exact (@load_no_shared_channel ascii_db [row_first; row_other; row_second]
           (store_of []) 0%nat loaded_three Hload
           0%nat 1%nat 0%nat 1%nat ltac:(lia) eq_refl eq_refl).
Defined.

Lemma load_succeeds_witness :
  (forall row, List.In row [row_first; row_second] ->
     (7 <= length row)%nat /\ List.In (ch " ") (@row_names ascii_db row))
  /\ exists st, @load_rows ascii_db [row_first; row_second] loader_init = inr st.
Proof.
  assert (H : forall row, List.In row [row_first; row_second] ->
                (7 <= length row)%nat /\ List.In (ch " ") (@row_names ascii_db row)).
  { intros row [<-|[<-|[]]]; (split; [simpl; lia|]); vm_compute; tauto. }
  split; [exact H|].
  exact (@load_succeeds ascii_db [row_first; row_second] loader_init H).
Defined.
